(** * dask_groupby.xarray: chunk-boundary alignment and reduction set-up

    A shallow embedding of [src/dask_groupby/xarray.py] and the properties
    its specification states about it.  Array indices and chunk sizes are
    integers ([Z]) standing for numpy's [int64]: the two agree as long as
    the chunk sizes are non-negative and add up to less than 2^63, which
    the properties that do not tie the chunks to the labels assume
    ([chunk_sizes]); group codes are non-negative ([nat]), as the per-group
    reductions of [numpy_groupies] require. *)

From stdpp Require Import base option numbers list sorting strings gmap.

Local Open Scope Z_scope.

(** ** Exceptions *)

Inductive exn : Set :=
  | IndexError
  | ValueError
  | TypeError
  | AssertionError
  | NotImplementedError.

Inductive result (A : Type) : Type :=
  | Ok (a : A)
  | Raise (e : exn).
Arguments Ok {A} a.
Arguments Raise {A} e.

#[global] Instance result_ret : MRet result := λ A a, Ok a.
#[global] Instance result_bind : MBind result := λ A B k m,
  match m with
  | Ok a => k a
  | Raise e => Raise e
  end.

(** ** The numpy and numpy_groupies operations the module calls *)

Module Np.

(** [a[i]] for an integer [i]: negative indices count from the end. *)
Definition getitem {A} (a : list A) (i : Z) : result A :=
  let n := Z.of_nat (length a) in
  let j := if i <? 0 then i + n else i in
  if (0 <=? j) && (j <? n) then
    match a !! Z.to_nat j with
    | Some x => Ok x
    | None => Raise IndexError
    end
  else Raise IndexError.

(** [a[idx]] for an integer index array [idx]. *)
Fixpoint take {A} (a : list A) (idx : list Z) : result (list A) :=
  match idx with
  | [] => Ok []
  | i :: idx' => x ← getitem a i; xs ← take a idx'; Ok (x :: xs)
  end.

Fixpoint cumsum_from (acc : Z) (l : list Z) : list Z :=
  match l with
  | [] => []
  | x :: l' => (acc + x) :: cumsum_from (acc + x) l'
  end.

Definition cumsum (l : list Z) : list Z := cumsum_from 0 l.

Fixpoint diff (l : list Z) : list Z :=
  match l with
  | x :: ((y :: _) as l') => (y - x) :: diff l'
  | _ => []
  end.

Definition sum (l : list Z) : Z := foldr Z.add 0 l.

Definition arange (n : nat) : list Z := seqZ 0 (Z.of_nat n).

(** [np.unique]: the sorted distinct values, for a strict order [ltb]. *)
Section Unique.
Context {A : Type} (ltb : A → A → bool).

Fixpoint insert_uniq (x : A) (l : list A) : list A :=
  match l with
  | [] => [x]
  | y :: l' =>
      if ltb x y then x :: l
      else if ltb y x then y :: insert_uniq x l'
      else l
  end.

Definition unique (l : list A) : list A := foldr insert_uniq [] l.
End Unique.

(** [npg.aggregate(group_idx, a, func=...)]: one entry per group code
    [0 .. max(group_idx)], [func] of the values of [a] that carry the code
    (in array order), and the fill value 0 for a code that never occurs.
    (An empty [group_idx] is refused by the library; the module never
    passes one, since indexing the labels at the chunk bounds comes first
    and fails on an empty array.) *)
Definition group_values (group_idx : list nat) (a : list Z) (g : nat) : list Z :=
  (filter (λ p, p.1 = g) (zip group_idx a)).*2.

Definition aggregate (func : list Z → option Z)
    (group_idx : list nat) (a : list Z) : list Z :=
  (λ g, default 0 (func (group_values group_idx a g)))
    <$> seq 0 (S (max_list group_idx)).

Definition eqb_list (l k : list Z) : bool := bool_decide (l = k).

End Np.

(** ** [_get_optimal_chunks_for_groups]

    The integers are those of numpy as long as nothing leaves [int64]:
    chunk sizes that are non-negative and add up to less than 2^63.  Beyond
    that numpy changes the type of the cumulative sums, which is not
    modelled. *)

(** [newchunkidx[-1]]; the list is never empty in the walk. *)
Definition last_elt (l : list Z) : Z := default 0 (last l).

(** One iteration of the loop over [zip(chunkidx, firstidx, lastidx)]. *)
Definition walk_step (newchunkidx : list Z) (cfl : Z * (Z * Z)) : list Z :=
  let '(c, (f, l)) := cfl in
  let Δf := Z.abs (c - f) in
  let Δl := Z.abs (c - l) in
  if (c =? 0) || (l <? last_elt newchunkidx) then newchunkidx
  else if (Δf <? Δl) && (last_elt newchunkidx <? f) then newchunkidx ++ [f]
  else newchunkidx ++ [l + 1].

Definition walk (chunkidx firstidx lastidx : list Z) : list Z :=
  fold_left walk_step (zip chunkidx (zip firstidx lastidx)) [0].

Definition _get_optimal_chunks_for_groups
    (chunks : list Z) (labels : list nat) : result (list Z) :=
  (* the cumulative sum of an empty tuple is a float array, refused as index *)
  if bool_decide (chunks = []) then Raise IndexError
  else
    let chunkidx := (λ s, s - 1) <$> Np.cumsum chunks in
    bound_labels ← Np.take labels chunkidx;
    let labels_at_chunk_bounds := Np.unique Nat.ltb bound_labels in
    let last_indexes := Np.aggregate last labels (Np.arange (length labels)) in
    lastidx ← Np.take last_indexes (Z.of_nat <$> labels_at_chunk_bounds);
    if bool_decide (length chunkidx = length lastidx) && Np.eqb_list chunkidx lastidx
    then Ok chunks
    else
      let first_indexes := Np.aggregate head labels (Np.arange (length labels)) in
      firstidx ← Np.take first_indexes (Z.of_nat <$> labels_at_chunk_bounds);
      let newchunkidx := walk chunkidx firstidx lastidx in
      let newchunkidx :=
        if bool_decide (last_elt newchunkidx ≠ last_elt chunkidx + 1)
        then newchunkidx ++ [last_elt chunkidx + 1]
        else newchunkidx in
      let newchunks := Np.diff newchunkidx in
      if bool_decide (Np.sum newchunks = Np.sum chunks)
      then Ok newchunks
      else Raise AssertionError.

(** ** [rechunk_to_group_boundaries]

    A labelled array is an object with an identity, named dimensions, its
    values, and (when it is backed by a chunked store) one partitioning per
    dimension.  The world records the re-partitions issued so far. *)

Record DataArray : Type := mkDataArray {
  obj_id : nat;
  dims : list string;
  values : list Z;
  chunks : option (list (list Z))
}.

Record world : Type := mkWorld {
  next_id : nat;
  repartitions : list (nat * string * list Z)
}.

(** [array.get_axis_num(dim)] *)
Definition get_axis_num (array : DataArray) (dim : string) : result nat :=
  match list_find (λ d, d = dim) (dims array) with
  | Some (axis, _) => Ok axis
  | None => Raise ValueError
  end.

(** What the chunked store accepts as the chunks of a dimension of [size]
    elements: no negative size, and sizes that add up to [size]. *)
Definition valid_chunks (size : Z) (newchunks : list Z) : bool :=
  forallb (λ c, 0 <=? c) newchunks && (Np.sum newchunks =? size).

(** [array.chunk({dim: newchunks})] for an array whose chunks are
    [all_chunks] (the length of a dimension is the sum of its chunks): a new
    array object over the same values, re-partitioned along [dim] only;
    chunks that do not partition the dimension are refused. *)
Definition chunk (array : DataArray) (all_chunks : list (list Z))
    (dim : string) (axis : nat) (newchunks : list Z) (w : world)
    : result (DataArray * world) :=
  if valid_chunks (Np.sum (default [] (all_chunks !! axis))) newchunks then
    Ok ({| obj_id := next_id w;
           dims := dims array;
           values := values array;
           chunks := Some (<[axis := newchunks]> all_chunks) |},
        {| next_id := S (next_id w);
           repartitions := repartitions w ++ [(obj_id array, dim, newchunks)] |})
  else Raise ValueError.

Definition rechunk_to_group_boundaries (array : DataArray) (dim : string)
    (labels : list nat) (w : world) : result (DataArray * world) :=
  axis ← get_axis_num array dim;
  match chunks array with
  | None => Raise TypeError
  | Some all_chunks =>
      match all_chunks !! axis with
      | None => Raise IndexError
      | Some chunks =>
          newchunks ← _get_optimal_chunks_for_groups chunks labels;
          if bool_decide (newchunks = chunks) then Ok (array, w)
          else chunk array all_chunks dim axis newchunks w
      end
  end.

(** ** [resample_reduce]: the label array *)

Record slice : Type := mkSlice { start : Z; stop : option Z }.

(** [idx * np.ones((stop - slicer.start,))]; a negative length is refused. *)
Definition label_run (size : Z) (idx : nat) (slicer : slice) : result (list nat) :=
  let stop := default size (stop slicer) in
  if stop - start slicer <? 0 then Raise ValueError
  else Ok (replicate (Z.to_nat (stop - start slicer)) idx).

Fixpoint tostack_from (size : Z) (idx : nat) (group_indices : list slice)
    : result (list (list nat)) :=
  match group_indices with
  | [] => Ok []
  | slicer :: rest =>
      run ← label_run size idx slicer;
      runs ← tostack_from size (S idx) rest;
      Ok (run :: runs)
  end.

(** [np.hstack(tostack)], which refuses an empty sequence. *)
Definition resample_labels (size : Z) (group_indices : list slice)
    : result (list nat) :=
  tostack ← tostack_from size 0 group_indices;
  match tostack with
  | [] => Raise ValueError
  | _ => Ok (concat tostack)
  end.

(** The part of [resample_reduce] before the reduction proper: build the
    labels and align the chunks of a chunked array to them. *)
Definition resample_rechunk (array : DataArray) (dim : string) (size : Z)
    (group_indices : list slice) (w : world) : result (DataArray * world) :=
  by_ ← resample_labels size group_indices;
  match chunks array with
  | Some _ => rechunk_to_group_boundaries array dim by_ w
  | None => Ok (array, w)
  end.

(** ** [xarray_reduce]: the grouping keys *)

Inductive key_data : Type :=
  | NumpyArray (v : list Z)
  | DaskArray (v : list Z).

Definition is_dask_collection (k : key_data) : bool :=
  match k with
  | DaskArray _ => true
  | NumpyArray _ => false
  end.

(** Lines 31-32. *)
Definition multi_key_guard (by_ : list key_data) : result unit :=
  if bool_decide (1 < length by_)%nat && existsb is_dask_collection by_
  then Raise ValueError
  else Ok ().

Definition key_values (k : key_data) : list Z :=
  match k with
  | NumpyArray v => v
  | DaskArray v => v
  end.

Section XarrayReduce.
(** [factorize_] of [dask_groupby.core], applied to the key arrays, the
    expected groups and the bins; it returns the group codes, the
    expected groups and the group shape. *)
Variable factorize_ :
  list (list Z) → option (list (list Z)) →
  result (list nat * list (list Z) * list nat).

(** Lines 29-59: the expected groups and the group shape. *)
Definition xarray_reduce_groups (by_ : list key_data)
    (expected_groups : option (list (list Z)))
    : result (list (list Z) * list nat) :=
  _ ← multi_key_guard by_;
  match by_ with
  | [] => Raise IndexError
  | [by0] =>
      let expected_groups :=
        match expected_groups, by0 with
        | None, NumpyArray v => Some [Np.unique Z.ltb v]
        | _, _ => expected_groups
        end in
      match expected_groups with
      | None => Raise NotImplementedError
      | Some expected_groups =>
          eg0 ← Np.getitem expected_groups 0;
          Ok (expected_groups, [length eg0])
      end
  | _ =>
      '(_, expected_groups, group_shape) ←
        factorize_ (key_values <$> by_) expected_groups;
      Ok (expected_groups, group_shape)
  end.
End XarrayReduce.

(** ** [wrapper]: densification of a multi-key result *)

(** An n-dimensional array: its shape and its elements in C order. *)
Record ndarray : Type := mkNd { shape : list nat; flat : list Z }.

Definition prod (shape : list nat) : nat := foldr Nat.mul 1%nat shape.

(** Position of the multi-index [idx] in the flat (C-order) data. *)
Fixpoint ravel_from (acc : nat) (shape idx : list nat) : nat :=
  match shape, idx with
  | s :: shape', i :: idx' => ravel_from (acc * s + i) shape' idx'
  | _, _ => acc
  end.

Definition ravel_index (shape idx : list nat) : nat := ravel_from 0 shape idx.

(** Multi-index of the flat position [k]. *)
Fixpoint unravel_index (shape : list nat) (k : nat) : list nat :=
  match shape with
  | [] => []
  | s :: shape' =>
      ((k / prod shape') mod s)%nat :: unravel_index shape' (k mod prod shape')%nat
  end.

Definition in_shape (shape idx : list nat) : Prop :=
  Forall2 (λ i s, i < s)%nat idx shape.

(** [a.reshape(new_shape)] *)
Definition reshape (a : list Z) (new_shape : list nat) : result ndarray :=
  if bool_decide (prod new_shape = length a)
  then Ok {| shape := new_shape; flat := a |}
  else Raise ValueError.

(** [a[idx]] for a full multi-index. *)
Definition item (a : ndarray) (idx : list nat) : option Z :=
  if bool_decide (Forall2 (λ i s, i < s)%nat idx (shape a))
  then flat a !! ravel_index (shape a) idx
  else None.

Module Core.

(** Modelled from the spec: [factorize_] is defined in [dask_groupby.core],
    which is not part of this file.  The combined group code is
    [idx_0 + idx_1*shape_0 + idx_2*shape_0*shape_1 + …]. *)
Fixpoint linearize (shape idx : list nat) : nat :=
  match shape, idx with
  | s :: shape', i :: idx' => (i + s * linearize shape' idx')%nat
  | _, _ => 0%nat
  end.

(** Modelled from the spec: [reindex_] is defined in [dask_groupby.core],
    which is not part of this file.  A dense buffer, one cell per entry of
    [to], is initialised with the fill value; then each value of the
    partial result is scattered to the position of its reported code. *)
Definition scatter (to : list nat) (buf : list Z) (cv : nat * Z) : list Z :=
  match list_find (λ t, t = cv.1) to with
  | Some (p, _) => <[p := cv.2]> buf
  | None => buf
  end.

Definition reindex_ (result : list Z) (from_ to : list nat) (fill_value : Z)
    : list Z :=
  fold_left (scatter to) (zip from_ result) (replicate (length to) fill_value).

End Core.

(** Lines 66-79, applied to what [groupby_reduce] returned. *)
Definition wrapper (nkeys : nat) (group_shape : list nat) (fill_value : Z)
    (reduced : list Z * list nat) : result ndarray :=
  let '(result, groups) := reduced in
  if bool_decide (1 < nkeys)%nat then
    let reindexed :=
      Core.reindex_ result groups (seq 0 (prod group_shape)) fill_value in
    reshape reindexed group_shape
  else Ok {| shape := [length result]; flat := result |}.

(** ** [xarray_reduce]: the dimensions of the reduction *)

(** Line 42: [tuple(range(-len(dim), 0))]. *)
Definition reduce_axis (dim : list string) : list Z :=
  seqZ (- Z.of_nat (length dim)) (Z.of_nat (length dim)).

(** Line 61: [dict(zip(group_names, group_shape))]; a later pair with the
    same name replaces an earlier one. *)
Definition group_sizes (group_names : list string) (group_shape : list nat)
    : gmap string nat :=
  fold_left (λ sizes p, <[p.1 := p.2]> sizes) (zip group_names group_shape) ∅.

(** Lines 62-64. *)
Definition otherdims (obj_dims dim : list string) : list string :=
  filter (λ d, d ∉ dim) obj_dims.

Definition indims (obj_dims dim : list string) : list string :=
  otherdims obj_dims dim ++ dim.

Definition result_dims (obj_dims dim group_names : list string) : list string :=
  otherdims obj_dims dim ++ group_names.

(** ** Vocabulary of the properties *)

(** [k] is the first / the last position of group [g] in [labels]. *)
Definition first_occ (labels : list nat) (g k : nat) : Prop :=
  labels !! k = Some g ∧ ∀ j, (j < k)%nat → labels !! j ≠ Some g.

Definition last_occ (labels : list nat) (g k : nat) : Prop :=
  labels !! k = Some g ∧ ∀ j, (k < j)%nat → labels !! j ≠ Some g.

(** The index [c] is the last position of the group found there. *)
Definition is_last_index (labels : list nat) (c : Z) : bool :=
  (0 <=? c) &&
  match labels !! Z.to_nat c with
  | Some g => bool_decide (g ∉ drop (S (Z.to_nat c)) labels)
  | None => false
  end.

(** Index of the last element of each chunk. *)
Definition chunk_ends (chunks : list Z) : list Z :=
  (λ s, s - 1) <$> Np.cumsum chunks.

(** Chunk sizes as the chunked store gives them, within [int64]. *)
Definition chunk_sizes (chunks : list Z) : Prop :=
  Forall (λ c, 0 ≤ c) chunks ∧ Np.sum chunks < 2 ^ 63.

(** A Partitioning of [n] elements. *)
Definition partitioning (chunks : list Z) (n : nat) : Prop :=
  chunks ≠ [] ∧ Forall (λ c, 0 < c) chunks ∧ Np.sum chunks = Z.of_nat n.

(** A position where the sequence may be cut without splitting a group:
    the labels on its two sides differ, or it is the end of the sequence
    (where the lookup on the right finds nothing). *)
Definition group_boundary (labels : list nat) (b : Z) : Prop :=
  0 < b ≤ Z.of_nat (length labels) ∧
  labels !! Z.to_nat (b - 1) ≠ labels !! Z.to_nat b.

(** What the walk maintains of [newchunkidx]. *)
Definition walk_inv (labels : list nat) (newchunkidx : list Z) : Prop :=
  ∃ rest, newchunkidx = 0 :: rest ∧
          StronglySorted Z.lt newchunkidx ∧
          Forall (group_boundary labels) rest.

Definition first_index_in (labels : list nat) (f : Z) : Prop :=
  ∃ g k, f = Z.of_nat k ∧ first_occ labels g k.

Definition last_index_in (labels : list nat) (l : Z) : Prop :=
  ∃ g k, l = Z.of_nat k ∧ last_occ labels g k.

(** Number of keys backed by a lazy collection. *)
Definition lazy_count (by_ : list key_data) : nat :=
  length (filter (λ k, is_dask_collection k = true) by_).

(** Length of the run that a slicer contributes. *)
Definition run_length (size : Z) (slicer : slice) : nat :=
  Z.to_nat (default size (stop slicer) - start slicer).

(** Runs of [idx], [idx + 1], ... of the given lengths, one after another. *)
Fixpoint runs_from (idx : nat) (lens : list nat) : list nat :=
  match lens with
  | [] => []
  | n :: lens' => replicate n idx ++ runs_from (S idx) lens'
  end.

(** The slices of a resampler tile the dimension from [pos] to [size]:
    each starts where the previous one stops, and the last one is open or
    stops at [size]. *)
Fixpoint tiles (pos size : Z) (group_indices : list slice) : Prop :=
  match group_indices with
  | [] => False
  | slicer :: rest =>
      start slicer = pos ∧
      match rest with
      | [] => pos ≤ size ∧ (stop slicer = None ∨ stop slicer = Some size)
      | _ => ∃ e, stop slicer = Some e ∧ pos ≤ e ∧ tiles e size rest
      end
  end.

(** * Properties *)

Example aligned_scenario :
  _get_optimal_chunks_for_groups [3; 4; 2] [0; 0; 0; 1; 1; 1; 1; 2; 2]%nat
  = Ok [3; 4; 2].
Proof. vm_compute. reflexivity. Qed.

Example misaligned_scenario :
  _get_optimal_chunks_for_groups [4; 3; 2] [0; 0; 0; 1; 1; 1; 1; 2; 2]%nat
  = Ok [3; 4; 2].
Proof. vm_compute. reflexivity. Qed.

(** Labels that are not sorted are outside the contract: chunks that end
    on last indexes are then merged all the same. *)
Example unsorted_labels_scenario :
  forallb (is_last_index [2; 0; 1]%nat) (chunk_ends [1; 1; 1]) = true ∧
  _get_optimal_chunks_for_groups [1; 1; 1] [2; 0; 1]%nat = Ok [3].
Proof. split; vm_compute; reflexivity. Qed.

Example densify_scenario :
  wrapper 2 [2; 3]%nat (-1) ([10; 40], [1; 4]%nat)
  = Ok {| shape := [2; 3]%nat; flat := [-1; 10; -1; -1; 40; -1] |}.
Proof. vm_compute. reflexivity. Qed.

(** ** Per-group first and last indexes *)

Lemma head_fmap {A B} (f : A → B) (l : list A) : head (f <$> l) = f <$> head l.
Proof. by destruct l. Qed.

Lemma lookup_zip_arange (labels : list nat) (j : nat) :
  zip labels (Np.arange (length labels)) !! j
  = (λ x, (x, Z.of_nat j)) <$> labels !! j.
Proof.
  unfold Np.arange. rewrite lookup_zip_with.
  destruct (labels !! j) as [x|] eqn:Hx; simpl.
  - apply lookup_lt_Some in Hx.
    rewrite lookup_seqZ_lt by lia. done.
  - done.
Qed.

Lemma group_values_nonempty (labels : list nat) (g : nat) :
  g ∈ labels → Np.group_values labels (Np.arange (length labels)) g ≠ [].
Proof.
  intros [j Hj]%list_elem_of_lookup_1 Hnil.
  assert ((g, Z.of_nat j) ∈ filter (λ p : nat * Z, p.1 = g)
            (zip labels (Np.arange (length labels)))) as Hin.
  { apply list_elem_of_filter. split; [done|].
    apply (list_elem_of_lookup_2 _ j). by rewrite lookup_zip_arange, Hj. }
  unfold Np.group_values in Hnil. apply fmap_nil_inv in Hnil.
  rewrite Hnil in Hin. by apply not_elem_of_nil in Hin.
Qed.

Lemma group_values_last (labels : list nat) (g : nat) (v : Z) :
  last (Np.group_values labels (Np.arange (length labels)) g) = Some v →
  ∃ k, v = Z.of_nat k ∧ last_occ labels g k.
Proof.
  unfold Np.group_values. rewrite fmap_last. intros Hv.
  destruct (last _) as [[x v']|] eqn:Hlast; [|done].
  simpl in Hv. injection Hv as Hv. subst v.
  pose proof (last_Some_elem_of _ _ Hlast) as [Hx _]%list_elem_of_filter.
  apply last_filter_Some in Hlast as (l1 & l2 & Hzip & Hl2).
  simpl in Hx. subst x.
  pose proof (list_lookup_middle l1 l2 (g, v') (length l1) eq_refl) as Hk.
  rewrite <- Hzip, lookup_zip_arange in Hk.
  destruct (labels !! length l1) as [x|] eqn:Hlk; [|done].
  simpl in Hk. injection Hk as Hx Hv'. subst x v'.
  exists (length l1). split; [done|]. split; [done|].
  intros j Hj Hlj.
  assert (zip labels (Np.arange (length labels)) !! j = Some (g, Z.of_nat j)) as Hzj
    by (by rewrite lookup_zip_arange, Hlj).
  rewrite Hzip in Hzj.
  rewrite lookup_app_r in Hzj by lia.
  destruct (j - length l1)%nat as [|m] eqn:Hm; [lia|]. simpl in Hzj.
  apply list_elem_of_lookup_2 in Hzj.
  rewrite Forall_forall in Hl2. by apply (Hl2 _ Hzj).
Qed.

Lemma group_values_head (labels : list nat) (g : nat) (v : Z) :
  head (Np.group_values labels (Np.arange (length labels)) g) = Some v →
  ∃ k, v = Z.of_nat k ∧ first_occ labels g k.
Proof.
  unfold Np.group_values. rewrite head_fmap. intros Hv.
  destruct (head _) as [[x v']|] eqn:Hhead; [|done].
  simpl in Hv. injection Hv as Hv. subst v.
  pose proof (head_Some_elem_of _ _ Hhead) as [Hx _]%list_elem_of_filter.
  apply head_filter_Some in Hhead as (l1 & l2 & Hzip & Hl1).
  simpl in Hx. subst x.
  pose proof (list_lookup_middle l1 l2 (g, v') (length l1) eq_refl) as Hk.
  rewrite <- Hzip, lookup_zip_arange in Hk.
  destruct (labels !! length l1) as [x|] eqn:Hlk; [|done].
  simpl in Hk. injection Hk as Hx Hv'. subst x v'.
  exists (length l1). split; [done|]. split; [done|].
  intros j Hj Hlj.
  assert (zip labels (Np.arange (length labels)) !! j = Some (g, Z.of_nat j)) as Hzj
    by (by rewrite lookup_zip_arange, Hlj).
  rewrite Hzip in Hzj.
  rewrite lookup_app_l in Hzj by lia.
  apply list_elem_of_lookup_2 in Hzj.
  rewrite Forall_forall in Hl1. by apply (Hl1 _ Hzj).
Qed.

Lemma aggregate_lookup (func : list Z → option Z) (labels : list nat) (g : nat) :
  g ∈ labels →
  Np.aggregate func labels (Np.arange (length labels)) !! g
  = Some (default 0 (func (Np.group_values labels (Np.arange (length labels)) g))).
Proof.
  intros Hg. unfold Np.aggregate. rewrite list_lookup_fmap.
  pose proof (max_list_elem_of_le _ _ Hg).
  rewrite lookup_seq_lt by lia. done.
Qed.

Lemma aggregate_last_spec (labels : list nat) (g : nat) :
  g ∈ labels →
  ∃ k, Np.aggregate last labels (Np.arange (length labels)) !! g
       = Some (Z.of_nat k) ∧ last_occ labels g k.
Proof.
  intros Hg. rewrite aggregate_lookup by done.
  pose proof (group_values_nonempty labels g Hg) as Hne.
  apply last_is_Some in Hne as [v Hv].
  destruct (group_values_last _ _ _ Hv) as (k & -> & Hk).
  exists k. by rewrite Hv.
Qed.

Lemma aggregate_first_spec (labels : list nat) (g : nat) :
  g ∈ labels →
  ∃ k, Np.aggregate head labels (Np.arange (length labels)) !! g
       = Some (Z.of_nat k) ∧ first_occ labels g k.
Proof.
  intros Hg. rewrite aggregate_lookup by done.
  pose proof (group_values_nonempty labels g Hg) as Hne.
  apply head_is_Some in Hne as [v Hv].
  destruct (group_values_head _ _ _ Hv) as (k & -> & Hk).
  exists k. by rewrite Hv.
Qed.

(** ** Indexing *)

Lemma getitem_nonneg {A} (a : list A) (i : Z) (x : A) :
  0 ≤ i → a !! Z.to_nat i = Some x → Np.getitem a i = Ok x.
Proof.
  intros Hi Hx. pose proof (lookup_lt_Some _ _ _ Hx) as Hlt.
  unfold Np.getitem.
  destruct (Z.ltb_spec i 0); [lia|].
  destruct (Z.leb_spec 0 i); [|lia].
  destruct (Z.ltb_spec i (Z.of_nat (length a))); [|lia].
  simpl. by rewrite Hx.
Qed.

Lemma take_Forall2 {A} (a : list A) (idx : list Z) (xs : list A) :
  Forall2 (λ i x, 0 ≤ i ∧ a !! Z.to_nat i = Some x) idx xs →
  Np.take a idx = Ok xs.
Proof.
  induction 1 as [|i x idx xs [Hi Hx] _ IH]; [done|].
  simpl. rewrite (getitem_nonneg a i x Hi Hx). simpl. by rewrite IH.
Qed.

Lemma Forall_exists_Forall2 {A B} (P : A → B → Prop) (l : list A) :
  Forall (λ x, ∃ y, P x y) l → ∃ k, Forall2 P l k.
Proof.
  induction 1 as [|x l [y Hy] _ [k IH]].
  - by exists [].
  - exists (y :: k). by constructor.
Qed.

(** ** Cumulative sums and differences *)

Lemma cumsum_from_bounds (acc : Z) (l : list Z) :
  Forall (λ c, 0 < c) l →
  Forall (λ s, acc < s ≤ acc + Np.sum l) (Np.cumsum_from acc l).
Proof.
  intros Hpos. revert acc.
  induction Hpos as [|x l Hx Hpos IH]; intros acc; simpl; [constructor|].
  assert (0 ≤ Np.sum l) as Hsum.
  { clear IH. induction Hpos as [|y l' Hy _ IH']; simpl; lia. }
  constructor; [lia|].
  eapply Forall_impl; [apply IH|]. simpl. intros s ?. lia.
Qed.

Lemma cumsum_from_sorted (acc : Z) (l : list Z) :
  Forall (λ c, 0 < c) l → StronglySorted Z.lt (Np.cumsum_from acc l).
Proof.
  intros Hpos. revert acc.
  induction Hpos as [|x l Hx Hpos IH]; intros acc; simpl; constructor.
  - apply IH.
  - eapply Forall_impl; [by apply cumsum_from_bounds|]. simpl. intros s ?. lia.
Qed.

Lemma cumsum_from_last (acc : Z) (l : list Z) :
  l ≠ [] → last (Np.cumsum_from acc l) = Some (acc + Np.sum l).
Proof.
  revert acc. induction l as [|x l IH]; intros acc Hne; [done|].
  destruct l as [|y l].
  - simpl. f_equal. lia.
  - change (Np.cumsum_from acc (x :: y :: l))
      with ((acc + x) :: Np.cumsum_from (acc + x) (y :: l)).
    change (Np.cumsum_from (acc + x) (y :: l))
      with ((acc + x + y) :: Np.cumsum_from (acc + x + y) l).
    rewrite last_cons_cons.
    change ((acc + x + y) :: Np.cumsum_from (acc + x + y) l)
      with (Np.cumsum_from (acc + x) (y :: l)).
    rewrite IH by done. simpl. f_equal. lia.
Qed.

Lemma last_elt_snoc (l : list Z) (x : Z) : last_elt (l ++ [x]) = x.
Proof. unfold last_elt. by rewrite last_snoc. Qed.

Lemma sum_diff (x0 : Z) (r : list Z) :
  Np.sum (Np.diff (x0 :: r)) = last_elt (x0 :: r) - x0.
Proof.
  revert x0. induction r as [|y r IH]; intros x0.
  - unfold last_elt. simpl. lia.
  - change (Np.diff (x0 :: y :: r)) with ((y - x0) :: Np.diff (y :: r)).
    change (Np.sum ((y - x0) :: Np.diff (y :: r)))
      with ((y - x0) + Np.sum (Np.diff (y :: r))).
    rewrite IH. unfold last_elt. rewrite last_cons_cons. lia.
Qed.

Lemma cumsum_diff (x0 : Z) (r : list Z) :
  Np.cumsum_from x0 (Np.diff (x0 :: r)) = r.
Proof.
  revert x0. induction r as [|y r IH]; intros x0; [done|].
  change (Np.diff (x0 :: y :: r)) with ((y - x0) :: Np.diff (y :: r)).
  simpl Np.cumsum_from. replace (x0 + (y - x0)) with y by lia.
  by rewrite IH.
Qed.

(** ** [np.unique] *)

Section UniqueFacts.
Context {A : Type} (ltb : A → A → bool) (lt : relation A).
Context `{!StrictOrder lt}.
Hypothesis ltb_lt : ∀ x y, ltb x y = true ↔ lt x y.
Hypothesis lt_total : ∀ x y, lt x y ∨ x = y ∨ lt y x.

Lemma elem_of_insert_uniq (x y : A) (l : list A) :
  y ∈ Np.insert_uniq ltb x l ↔ y = x ∨ y ∈ l.
Proof.
  induction l as [|z l IH]; simpl.
  - rewrite list_elem_of_singleton, elem_of_nil. tauto.
  - destruct (ltb x z) eqn:Hxz; [by rewrite elem_of_cons|].
    destruct (ltb z x) eqn:Hzx.
    { rewrite !elem_of_cons, IH. tauto. }
    assert (x = z) as ->.
    { destruct (lt_total x z) as [H|[H|H]]; [|done|];
        apply ltb_lt in H; congruence. }
    rewrite elem_of_cons. tauto.
Qed.

Lemma elem_of_unique (y : A) (l : list A) : y ∈ Np.unique ltb l ↔ y ∈ l.
Proof.
  induction l as [|x l IH]; simpl; [done|].
  by rewrite elem_of_insert_uniq, IH, elem_of_cons.
Qed.

Lemma insert_uniq_sorted (x : A) (l : list A) :
  StronglySorted lt l → StronglySorted lt (Np.insert_uniq ltb x l).
Proof.
  induction 1 as [|z l Hs IH Hz]; simpl.
  - repeat constructor.
  - destruct (ltb x z) eqn:Hxz.
    { apply ltb_lt in Hxz. constructor; [by constructor|].
      constructor; [done|]. eapply Forall_impl; [exact Hz|].
      intros w ?. by transitivity z. }
    destruct (ltb z x) eqn:Hzx; [|by constructor].
    apply ltb_lt in Hzx. constructor; [done|].
    apply Forall_forall. intros w [->|Hw]%elem_of_insert_uniq; [done|].
    rewrite Forall_forall in Hz. by apply Hz.
Qed.

Lemma unique_sorted (l : list A) : StronglySorted lt (Np.unique ltb l).
Proof.
  induction l as [|x l IH]; simpl; [constructor|].
  by apply insert_uniq_sorted.
Qed.

Lemma unique_of_sorted (l : list A) :
  StronglySorted lt l → Np.unique ltb l = l.
Proof.
  induction 1 as [|x l Hs IH Hx]; simpl; [done|].
  rewrite IH. destruct Hx as [|y l Hy _]; simpl; [done|].
  apply ltb_lt in Hy. by rewrite Hy.
Qed.
End UniqueFacts.

Lemma nat_ltb_lt (x y : nat) : Nat.ltb x y = true ↔ (x < y)%nat.
Proof. apply Nat.ltb_lt. Qed.

Lemma nat_lt_total (x y : nat) : (x < y ∨ x = y ∨ y < x)%nat.
Proof. lia. Qed.

Lemma Z_ltb_lt (x y : Z) : Z.ltb x y = true ↔ x < y.
Proof. apply Z.ltb_lt. Qed.

Lemma Z_lt_total (x y : Z) : x < y ∨ x = y ∨ y < x.
Proof. lia. Qed.

(** ** The greedy walk *)

Lemma last_occ_boundary (labels : list nat) (g k : nat) :
  last_occ labels g k → group_boundary labels (Z.of_nat k + 1).
Proof.
  intros [Hk Hlast]. pose proof (lookup_lt_Some _ _ _ Hk).
  split; [lia|].
  replace (Z.to_nat (Z.of_nat k + 1 - 1)) with k by lia.
  replace (Z.to_nat (Z.of_nat k + 1)) with (S k) by lia.
  rewrite Hk. intros Heq. by apply (Hlast (S k)); [lia|].
Qed.

Lemma first_occ_boundary (labels : list nat) (g k : nat) :
  first_occ labels g k → (0 < k)%nat → group_boundary labels (Z.of_nat k).
Proof.
  intros [Hk Hfirst] Hpos. pose proof (lookup_lt_Some _ _ _ Hk).
  split; [lia|].
  replace (Z.to_nat (Z.of_nat k - 1)) with (k - 1)%nat by lia.
  rewrite Nat2Z.id, Hk. by apply Hfirst; lia.
Qed.

Lemma sorted_le_last (l : list Z) (x : Z) :
  StronglySorted Z.lt l → x ∈ l → x ≤ last_elt l.
Proof.
  intros Hs Hx. unfold last_elt.
  destruct (last l) as [y|] eqn:Hlast.
  - apply last_Some in Hlast as [l' ->]. simpl.
    apply elem_of_app in Hx as [Hx|Hx%list_elem_of_singleton]; [|lia].
    assert (x < y); [|lia].
    eapply (StronglySorted_app_1_elem_of _ l' [y]); [done..|].
    by apply list_elem_of_singleton.
  - apply last_None in Hlast. subst l. by apply elem_of_nil in Hx.
Qed.

Lemma walk_inv_snoc (labels : list nat) (ncs : list Z) (b : Z) :
  walk_inv labels ncs → last_elt ncs < b → group_boundary labels b →
  walk_inv labels (ncs ++ [b]).
Proof.
  intros (rest & -> & Hs & Hgb) Hlt Hb.
  exists (rest ++ [b]). split; [done|]. split.
  - apply StronglySorted_app_2; [|done|repeat constructor].
    intros x y Hx ->%list_elem_of_singleton.
    pose proof (sorted_le_last _ _ Hs Hx). lia.
  - apply Forall_app. split; [done|]. constructor; [done|constructor].
Qed.

Lemma walk_inv_last_nonneg (labels : list nat) (ncs : list Z) :
  walk_inv labels ncs → 0 ≤ last_elt ncs.
Proof.
  intros (rest & -> & Hs & _). apply sorted_le_last; [done|]. apply elem_of_cons. by left.
Qed.

Lemma walk_step_inv (labels : list nat) (ncs : list Z) (c f l : Z) :
  first_index_in labels f → last_index_in labels l →
  walk_inv labels ncs → walk_inv labels (walk_step ncs (c, (f, l))).
Proof.
  intros (gf & kf & -> & Hf) (gl & kl & -> & Hl) Hinv.
  pose proof (walk_inv_last_nonneg _ _ Hinv) as Hnn.
  unfold walk_step.
  destruct ((c =? 0) || _) eqn:Hskip; [done|].
  apply orb_false_iff in Hskip as [_ Hle%Z.ltb_ge].
  destruct ((_ <? _) && _) eqn:Hcase.
  - apply andb_true_iff in Hcase as [_ Hlt%Z.ltb_lt].
    apply walk_inv_snoc; [done..|].
    eapply first_occ_boundary; [done|lia].
  - apply walk_inv_snoc; [done|lia|]. by eapply last_occ_boundary.
Qed.

Lemma walk_steps_inv (labels : list nat) (triples : list (Z * (Z * Z))) (ncs : list Z) :
  Forall (λ t, first_index_in labels t.2.1 ∧ last_index_in labels t.2.2) triples →
  walk_inv labels ncs → walk_inv labels (fold_left walk_step triples ncs).
Proof.
  intros Ht. revert ncs.
  induction Ht as [|[c [f l]] triples [Hf Hl] _ IH]; intros ncs Hinv; simpl; [done|].
  apply IH. by apply walk_step_inv.
Qed.

Lemma walk_inv_walk (labels : list nat) (chunkidx firstidx lastidx : list Z) :
  Forall (first_index_in labels) firstidx →
  Forall (last_index_in labels) lastidx →
  walk_inv labels (walk chunkidx firstidx lastidx).
Proof.
  intros Hf Hl. unfold walk. apply walk_steps_inv.
  - apply Forall_lookup. intros i [c [f l]] Hi.
    apply lookup_zip_with_Some in Hi as (c' & fl & Heq & _ & Hfl).
    simplify_eq.
    apply lookup_zip_with_Some in Hfl as (f' & l' & Heq & Hf' & Hl').
    simplify_eq. simpl.
    rewrite Forall_lookup in Hf, Hl. eauto.
  - exists []. repeat split; repeat constructor.
Qed.

Lemma diff_pos (l : list Z) :
  StronglySorted Z.lt l → Forall (λ d, 0 < d) (Np.diff l).
Proof.
  induction 1 as [|x l Hs IH Hx]; [constructor|].
  destruct l as [|y l]; [constructor|].
  change (Np.diff (x :: y :: l)) with ((y - x) :: Np.diff (y :: l)).
  constructor; [|done]. apply Forall_cons in Hx as [? _]. lia.
Qed.

(** What a finished walk yields, once its end has been forced. *)
Lemma walk_inv_result (labels : list nat) (ncs : list Z) :
  walk_inv labels ncs → last_elt ncs = Z.of_nat (length labels) →
  (0 < length labels)%nat →
  partitioning (Np.diff ncs) (length labels) ∧
  Forall (group_boundary labels) (Np.cumsum (Np.diff ncs)).
Proof.
  intros (rest & -> & Hs & Hgb) Hlast Hn.
  split; [split; [|split]|].
  - destruct rest as [|b rest]; [|done].
    unfold last_elt in Hlast. simpl in Hlast. lia.
  - by apply diff_pos.
  - rewrite sum_diff, Hlast. lia.
  - unfold Np.cumsum. by rewrite cumsum_diff.
Qed.

(** ** The chunk ends of a partitioning *)

Lemma sum_nonneg (chunks : list Z) :
  Forall (λ c, 0 < c) chunks → 0 ≤ Np.sum chunks.
Proof.
  induction 1 as [|c chunks Hc _ IH]; [done|].
  change (Np.sum (c :: chunks)) with (c + Np.sum chunks). lia.
Qed.

Lemma sum_pos (chunks : list Z) :
  chunks ≠ [] → Forall (λ c, 0 < c) chunks → 0 < Np.sum chunks.
Proof.
  intros Hne Hpos. destruct Hpos as [|c chunks Hc Hpos]; [done|].
  pose proof (sum_nonneg chunks Hpos).
  change (Np.sum (c :: chunks)) with (c + Np.sum chunks). lia.
Qed.

Lemma chunk_ends_bounds (chunks : list Z) (n : nat) :
  partitioning chunks n →
  Forall (λ c, 0 ≤ c < Z.of_nat n) (chunk_ends chunks).
Proof.
  intros (_ & Hpos & Hsum). unfold chunk_ends, Np.cumsum.
  apply Forall_fmap.
  eapply Forall_impl; [by apply cumsum_from_bounds|].
  simpl. intros s ?. lia.
Qed.

Lemma chunk_ends_sorted (chunks : list Z) :
  Forall (λ c, 0 < c) chunks → StronglySorted Z.lt (chunk_ends chunks).
Proof.
  intros Hpos. unfold chunk_ends, Np.cumsum.
  eapply StronglySorted_fmap; [|by apply cumsum_from_sorted].
  simpl. intros x y ?. lia.
Qed.

Lemma chunk_ends_last (chunks : list Z) (n : nat) :
  partitioning chunks n → last_elt (chunk_ends chunks) = Z.of_nat n - 1.
Proof.
  intros (Hne & _ & Hsum). unfold last_elt, chunk_ends, Np.cumsum.
  rewrite fmap_last, cumsum_from_last by done. simpl. lia.
Qed.

(** ** Reading the per-group indexes at the chunk bounds *)

Lemma take_in_range {A} (a : list A) (idx : list Z) :
  Forall (λ i, 0 ≤ i < Z.of_nat (length a)) idx →
  ∃ xs, Np.take a idx = Ok xs ∧
        Forall2 (λ i x, a !! Z.to_nat i = Some x) idx xs.
Proof.
  intros Hidx.
  destruct (Forall_exists_Forall2
              (λ i x, 0 ≤ i ∧ a !! Z.to_nat i = Some x) idx) as [xs Hxs].
  { eapply Forall_impl; [exact Hidx|]. simpl. intros i Hi.
    destruct (lookup_lt_is_Some_2 a (Z.to_nat i)) as [x Hx]; [lia|].
    exists x. split; [lia|done]. }
  exists xs. split; [by apply take_Forall2|].
  eapply Forall2_impl; [exact Hxs|]. by intros i x [_ ?].
Qed.

Lemma take_by_label (a : list Z) (P : nat → Z → Prop) (lab : list nat) :
  Forall (λ g, ∃ v, a !! g = Some v ∧ P g v) lab →
  ∃ vs, Np.take a (Z.of_nat <$> lab) = Ok vs ∧ Forall2 P lab vs.
Proof.
  intros Hlab.
  destruct (Forall_exists_Forall2 (λ g v, a !! g = Some v ∧ P g v) lab Hlab)
    as [vs Hvs].
  exists vs. split.
  - apply take_Forall2, Forall2_fmap_l.
    eapply Forall2_impl; [exact Hvs|]. simpl. intros g v [Hg _].
    rewrite Nat2Z.id. split; [lia|done].
  - eapply Forall2_impl; [exact Hvs|]. by intros g v [_ ?].
Qed.

Lemma Forall2_elem_of_r {A B} (P : A → B → Prop) (l : list A) (k : list B) (y : B) :
  Forall2 P l k → y ∈ k → ∃ x, x ∈ l ∧ P x y.
Proof.
  intros HP [i Hi]%list_elem_of_lookup_1.
  destruct (Forall2_lookup_r _ _ _ _ _ HP Hi) as (x & Hx & Hxy).
  exists x. split; [by eapply list_elem_of_lookup_2|done].
Qed.

Lemma bind_Ok {A B} (a : A) (k : A → result B) : (Ok a ≫= k) = k a.
Proof. reflexivity. Qed.

Lemma last_indexes_at (labels lab : list nat) :
  Forall (λ g, g ∈ labels) lab →
  ∃ lastidx,
    Np.take (Np.aggregate last labels (Np.arange (length labels)))
            (Z.of_nat <$> lab) = Ok lastidx ∧
    Forall2 (λ g l, ∃ k, l = Z.of_nat k ∧ last_occ labels g k) lab lastidx.
Proof.
  intros Hlab. apply take_by_label.
  eapply Forall_impl; [exact Hlab|]. simpl. intros g Hg.
  destruct (aggregate_last_spec labels g Hg) as (k & Hk & Hocc). eauto.
Qed.

Lemma first_indexes_at (labels lab : list nat) :
  Forall (λ g, g ∈ labels) lab →
  ∃ firstidx,
    Np.take (Np.aggregate head labels (Np.arange (length labels)))
            (Z.of_nat <$> lab) = Ok firstidx ∧
    Forall2 (λ g f, ∃ k, f = Z.of_nat k ∧ first_occ labels g k) lab firstidx.
Proof.
  intros Hlab. apply take_by_label.
  eapply Forall_impl; [exact Hlab|]. simpl. intros g Hg.
  destruct (aggregate_first_spec labels g Hg) as (k & Hk & Hocc). eauto.
Qed.

Lemma walk_inv_last_le (labels : list nat) (ncs : list Z) :
  walk_inv labels ncs → last_elt ncs ≤ Z.of_nat (length labels).
Proof.
  intros (rest & -> & _ & Hgb). unfold last_elt.
  destruct rest as [|b rest]; [simpl; lia|].
  rewrite last_cons_cons.
  destruct (last (b :: rest)) as [y|] eqn:Hlast; [|simpl; lia].
  apply last_Some_elem_of in Hlast. rewrite Forall_forall in Hgb.
  destruct (Hgb _ Hlast) as [? _]. simpl. lia.
Qed.

Lemma end_boundary (labels : list nat) :
  (0 < length labels)%nat → group_boundary labels (Z.of_nat (length labels)).
Proof.
  intros Hn. split; [lia|].
  rewrite Nat2Z.id.
  destruct (lookup_lt_is_Some_2 labels (Z.to_nat (Z.of_nat (length labels) - 1)))
    as [x Hx]; [lia|].
  rewrite Hx, (lookup_ge_None_2 labels (length labels)) by lia. done.
Qed.

(** ** The result of [_get_optimal_chunks_for_groups] *)

Lemma optimal_chunks_spec (chunks : list Z) (labels : list nat) :
  partitioning chunks (length labels) →
  ∃ out, _get_optimal_chunks_for_groups chunks labels = Ok out ∧
         partitioning out (length labels) ∧
         Forall (group_boundary labels) (Np.cumsum out).
Proof.
  intros Hp. pose proof Hp as (Hne & Hpos & Hsum).
  assert (0 < length labels)%nat as Hn.
  { pose proof (sum_pos chunks Hne Hpos). lia. }
  unfold _get_optimal_chunks_for_groups.
  rewrite bool_decide_eq_false_2 by done. cbv zeta.
  change ((λ s, s - 1) <$> Np.cumsum chunks) with (chunk_ends chunks).
  destruct (take_in_range labels (chunk_ends chunks)) as (bl & -> & Hbl);
    [by apply chunk_ends_bounds|].
  rewrite bind_Ok.
  assert (Forall (λ g, g ∈ labels) (Np.unique Nat.ltb bl)) as Hlab.
  { apply Forall_forall. intros g Hg.
    apply (elem_of_unique Nat.ltb lt nat_ltb_lt nat_lt_total g bl) in Hg.
    destruct (Forall2_elem_of_r _ _ _ _ Hbl Hg) as (c & _ & Hc).
    by eapply list_elem_of_lookup_2. }
  destruct (last_indexes_at labels _ Hlab) as (lastidx & -> & Hlast).
  rewrite bind_Ok.
  assert (Forall (last_index_in labels) lastidx) as Hlasts.
  { eapply Forall2_Forall_r; [exact Hlast|].
    apply Forall_forall. intros g _ l (k & -> & Hk). by exists g, k. }
  destruct (bool_decide _ && _) eqn:Hfast.
  - (* the chunk ends are the last indexes of their groups *)
    apply andb_true_iff in Hfast as [_ Heq%bool_decide_eq_true].
    exists chunks. split; [done|]. split; [done|].
    apply Forall_forall. intros s Hs.
    assert (s - 1 ∈ lastidx) as Hin.
    { rewrite <- Heq. unfold chunk_ends.
      apply list_elem_of_fmap. by exists s. }
    rewrite Forall_forall in Hlasts.
    destruct (Hlasts _ Hin) as (g & k & Hk & Hocc).
    replace s with (Z.of_nat k + 1) by lia. by eapply last_occ_boundary.
  - clear Hfast.
    destruct (first_indexes_at labels _ Hlab) as (firstidx & -> & Hfirst).
    rewrite bind_Ok.
    assert (Forall (first_index_in labels) firstidx) as Hfirsts.
    { eapply Forall2_Forall_r; [exact Hfirst|].
      apply Forall_forall. intros g _ f (k & -> & Hk). by exists g, k. }
    pose proof (walk_inv_walk labels (chunk_ends chunks) _ _ Hfirsts Hlasts) as Hinv.
    rewrite (chunk_ends_last chunks _ Hp).
    replace (Z.of_nat (length labels) - 1 + 1) with (Z.of_nat (length labels)) by lia.
    set (ncs := walk (chunk_ends chunks) firstidx lastidx) in *.
    set (ncs' := if bool_decide (last_elt ncs ≠ Z.of_nat (length labels))
                 then ncs ++ [Z.of_nat (length labels)] else ncs).
    assert (walk_inv labels ncs' ∧ last_elt ncs' = Z.of_nat (length labels))
      as [Hinv' Hend].
    { unfold ncs'. case_bool_decide as Hcase.
      - split; [|by rewrite last_elt_snoc].
        pose proof (walk_inv_last_le _ _ Hinv).
        apply walk_inv_snoc; [done|lia|by apply end_boundary].
      - split; [done|]. lia. }
    destruct (walk_inv_result labels ncs' Hinv' Hend Hn) as [Hpart Hgb].
    exists (Np.diff ncs').
    destruct Hpart as (? & ? & Hsum').
    rewrite bool_decide_eq_true_2 by lia. done.
Qed.

(** ** Sorted labels *)

Lemma sorted_lookup_le (labels : list nat) (i j x y : nat) :
  Sorted le labels → (i ≤ j)%nat →
  labels !! i = Some x → labels !! j = Some y → (x ≤ y)%nat.
Proof.
  intros Hs%Sorted_StronglySorted; [|intros a b c; lia].
  revert i j. induction Hs as [|z l Hs IH Hz]; intros i j Hij Hi Hj; [done|].
  destruct i as [|i], j as [|j]; simpl in *.
  - by simplify_eq.
  - simplify_eq. apply list_elem_of_lookup_2 in Hj.
    rewrite Forall_forall in Hz. by apply Hz.
  - lia.
  - apply (IH i j); [lia|done..].
Qed.

Lemma last_occ_unique (labels : list nat) (g k k' : nat) :
  last_occ labels g k → last_occ labels g k' → k = k'.
Proof.
  intros [Hk Hlast] [Hk' Hlast'].
  destruct (Nat.lt_trichotomy k k') as [Hlt|[?|Hlt]]; [|done|].
  - by destruct (Hlast k' Hlt).
  - by destruct (Hlast' k Hlt).
Qed.

Lemma is_last_index_spec (labels : list nat) (c : Z) :
  is_last_index labels c = true ↔ 0 ≤ c ∧ ∃ g, last_occ labels g (Z.to_nat c).
Proof.
  unfold is_last_index, last_occ. rewrite andb_true_iff, Z.leb_le.
  destruct (labels !! Z.to_nat c) as [g|] eqn:Hc.
  - rewrite bool_decide_eq_true. split.
    + intros [Hnn Hnot]. split; [done|]. exists g. split; [done|].
      intros j Hj Hlj. apply Hnot.
      apply (list_elem_of_lookup_2 _ (j - S (Z.to_nat c))%nat).
      rewrite lookup_drop, <- Hlj. f_equal. lia.
    + intros [Hnn (g' & Hg' & Hlast)]. simplify_eq. split; [done|].
      intros [i Hi]%list_elem_of_lookup_1. rewrite lookup_drop in Hi.
      apply (Hlast (S (Z.to_nat c) + i)%nat); [lia|done].
  - split; [by intros [_ ?]|]. by intros [_ (g & ? & _)].
Qed.

Lemma boundary_is_last (labels : list nat) (b : Z) :
  Sorted le labels → group_boundary labels b →
  is_last_index labels (b - 1) = true.
Proof.
  intros Hs [Hb Hne]. apply is_last_index_spec. split; [lia|].
  destruct (lookup_lt_is_Some_2 labels (Z.to_nat (b - 1))) as [g Hg]; [lia|].
  exists g. split; [done|]. intros j Hj Hlj.
  pose proof (lookup_lt_Some _ _ _ Hlj) as Hjn.
  destruct (lookup_lt_is_Some_2 labels (Z.to_nat b)) as [g' Hg']; [lia|].
  assert (g ≤ g')%nat
    by (apply (sorted_lookup_le labels (Z.to_nat (b - 1)) (Z.to_nat b)); [done|lia|done..]).
  assert (g' ≤ g)%nat
    by (apply (sorted_lookup_le labels (Z.to_nat b) j); [done|lia|done..]).
  apply Hne. rewrite Hg, Hg'. f_equal. lia.
Qed.

Lemma ends_labels_sorted (labels : list nat) (cs : list Z) (gs : list nat) :
  Sorted le labels → StronglySorted Z.lt cs →
  Forall2 (λ c g, 0 ≤ c ∧ last_occ labels g (Z.to_nat c)) cs gs →
  StronglySorted lt gs.
Proof.
  intros Hs Hcs HF.
  induction HF as [|c g cs gs [Hc [Hg Hlast]] HF IH]; [constructor|].
  apply StronglySorted_inv in Hcs as [Hcs Hlt].
  constructor; [by apply IH|].
  apply Forall_forall. intros g' Hg'.
  destruct (Forall2_elem_of_r _ _ _ _ HF Hg') as (c' & Hc' & Hc'nn & Hg'c & _).
  rewrite Forall_forall in Hlt. pose proof (Hlt _ Hc').
  assert (g ≤ g')%nat
    by (apply (sorted_lookup_le labels (Z.to_nat c) (Z.to_nat c')); [done|lia|done..]).
  assert (g ≠ g'); [|lia].
  intros ->. by apply (Hlast (Z.to_nat c')); [lia|].
Qed.

(** ** The fast path *)

Lemma aligned_identity (chunks : list Z) (labels : list nat) :
  chunks ≠ [] → Forall (λ c, 0 < c) chunks → Sorted le labels →
  forallb (is_last_index labels) (chunk_ends chunks) = true →
  _get_optimal_chunks_for_groups chunks labels = Ok chunks.
Proof.
  intros Hne Hpos Hs Hal.
  assert (∃ bl, Forall2 (λ c g, 0 ≤ c ∧ last_occ labels g (Z.to_nat c))
                        (chunk_ends chunks) bl) as [bl Hbl].
  { apply Forall_exists_Forall2, Forall_forall. intros c Hc.
    rewrite forallb_forall in Hal.
    apply list_elem_of_In, Hal, is_last_index_spec in Hc as [? [g ?]]. eauto. }
  unfold _get_optimal_chunks_for_groups.
  rewrite bool_decide_eq_false_2 by done. cbv zeta.
  change ((λ s, s - 1) <$> Np.cumsum chunks) with (chunk_ends chunks).
  rewrite (take_Forall2 labels (chunk_ends chunks) bl).
  2:{ eapply Forall2_impl; [exact Hbl|]. by intros c g [? [? _]]. }
  rewrite bind_Ok.
  rewrite (unique_of_sorted Nat.ltb lt nat_ltb_lt bl).
  2:{ eapply ends_labels_sorted; [done| |exact Hbl]. by apply chunk_ends_sorted. }
  rewrite (take_Forall2 (Np.aggregate last labels (Np.arange (length labels)))
             (Z.of_nat <$> bl) (chunk_ends chunks)).
  2:{ apply Forall2_fmap_l, Forall2_flip.
      eapply Forall2_impl; [exact Hbl|]. simpl. intros c g [Hc Hocc].
      split; [lia|]. rewrite Nat2Z.id.
      assert (g ∈ labels) as Hg by (eapply list_elem_of_lookup_2, Hocc).
      destruct (aggregate_last_spec labels g Hg) as (k & -> & Hk).
      f_equal. rewrite (last_occ_unique _ _ _ _ Hk Hocc). lia. }
  rewrite bind_Ok.
  rewrite bool_decide_eq_true_2 by done.
  unfold Np.eqb_list. rewrite bool_decide_eq_true_2 by done. done.
Qed.

Lemma optimal_chunks_idempotent (chunks : list Z) (labels : list nat) (out : list Z) :
  partitioning chunks (length labels) → Sorted le labels →
  _get_optimal_chunks_for_groups chunks labels = Ok out →
  _get_optimal_chunks_for_groups out labels = Ok out.
Proof.
  intros Hp Hs Hout.
  destruct (optimal_chunks_spec chunks labels Hp) as (out' & Hout' & Hpart & Hgb).
  rewrite Hout in Hout'. injection Hout' as <-.
  destruct Hpart as (Hne & Hpos & _).
  apply aligned_identity; [done..|].
  apply forallb_forall. intros c Hc%list_elem_of_In.
  unfold chunk_ends in Hc. apply list_elem_of_fmap in Hc as (s & -> & Hs').
  apply boundary_is_last; [done|].
  rewrite Forall_forall in Hgb. by apply Hgb.
Qed.

(** * Properties of [_get_optimal_chunks_for_groups] *)

(** C1: for a partitioning [chunks] of the labels (non-empty, positive
    entries, summing to the number of labels) and non-decreasing labels,
    the function returns a partitioning whose entries sum to [sum(chunks)];
    the closing assertion holds, so no [AssertionError] is raised. *)
Theorem optimal_chunks_sum (chunks : list Z) (labels : list nat) :
  partitioning chunks (length labels) → Sorted le labels →
  ∃ newchunks,
    _get_optimal_chunks_for_groups chunks labels = Ok newchunks ∧
    newchunks ≠ [] ∧ Forall (λ c, 0 < c) newchunks ∧
    Np.sum newchunks = Np.sum chunks ∧
    _get_optimal_chunks_for_groups chunks labels ≠ Raise AssertionError.
Proof.
  intros Hp _.
  destruct (optimal_chunks_spec chunks labels Hp)
    as (out & Hout & (Hne & Hpos & Hsum) & _).
  exists out. destruct Hp as (_ & _ & Hsum0).
  repeat split; [done..|lia|by rewrite Hout].
Qed.

Lemma optimal_chunks_sum_witness :
  partitioning [4; 3; 2] (length [0; 0; 0; 1; 1; 1; 1; 2; 2]%nat) ∧
  Sorted le [0; 0; 0; 1; 1; 1; 1; 2; 2]%nat ∧
  ∃ newchunks,
    _get_optimal_chunks_for_groups [4; 3; 2] [0; 0; 0; 1; 1; 1; 1; 2; 2]%nat
      = Ok newchunks ∧
    newchunks ≠ [] ∧ Forall (λ c, 0 < c) newchunks ∧
    Np.sum newchunks = Np.sum [4; 3; 2] ∧
    _get_optimal_chunks_for_groups [4; 3; 2] [0; 0; 0; 1; 1; 1; 1; 2; 2]%nat
      ≠ Raise AssertionError.
Proof.
  assert (partitioning [4; 3; 2] (length [0; 0; 0; 1; 1; 1; 1; 2; 2]%nat)) as Hp.
  { split; [discriminate|]. split; [repeat constructor|reflexivity]. }
  assert (Sorted le [0; 0; 0; 1; 1; 1; 1; 2; 2]%nat) as Hs.
  { repeat constructor. }
  split; [exact Hp|]. split; [exact Hs|].
  exact (optimal_chunks_sum _ _ Hp Hs).
Defined.

(** C2: under the same precondition no boundary of the returned
    partitioning falls inside a group run: every boundary [b] before the
    end has different labels at [b-1] and [b], and the final boundary is
    the end of the sequence. *)
Theorem optimal_chunks_no_split (chunks : list Z) (labels : list nat) :
  partitioning chunks (length labels) → Sorted le labels →
  ∃ newchunks,
    _get_optimal_chunks_for_groups chunks labels = Ok newchunks ∧
    last (Np.cumsum newchunks) = Some (Z.of_nat (length labels)) ∧
    ∀ b, b ∈ Np.cumsum newchunks →
      0 < b ≤ Z.of_nat (length labels) ∧
      (b < Z.of_nat (length labels) →
       labels !! Z.to_nat (b - 1) ≠ labels !! Z.to_nat b).
Proof.
  intros Hp _.
  destruct (optimal_chunks_spec chunks labels Hp)
    as (out & Hout & (Hne & Hpos & Hsum) & Hgb).
  exists out. split; [done|]. split.
  - unfold Np.cumsum. rewrite cumsum_from_last by done. f_equal. lia.
  - intros b Hb. rewrite Forall_forall in Hgb.
    destruct (Hgb b Hb) as [Hrange Hdiff]. split; [done|]. by intros _.
Qed.

Lemma optimal_chunks_no_split_witness :
  partitioning [2; 2; 5] (length [0; 0; 0; 1; 1; 1; 1; 2; 2]%nat) ∧
  Sorted le [0; 0; 0; 1; 1; 1; 1; 2; 2]%nat ∧
  ∃ newchunks,
    _get_optimal_chunks_for_groups [2; 2; 5] [0; 0; 0; 1; 1; 1; 1; 2; 2]%nat
      = Ok newchunks ∧
    last (Np.cumsum newchunks) = Some 9 ∧
    ∀ b, b ∈ Np.cumsum newchunks →
      0 < b ≤ 9 ∧
      (b < 9 →
       [0; 0; 0; 1; 1; 1; 1; 2; 2]%nat !! Z.to_nat (b - 1)
       ≠ [0; 0; 0; 1; 1; 1; 1; 2; 2]%nat !! Z.to_nat b).
Proof.
  assert (partitioning [2; 2; 5] (length [0; 0; 0; 1; 1; 1; 1; 2; 2]%nat)) as Hp.
  { split; [discriminate|]. split; [repeat constructor|reflexivity]. }
  assert (Sorted le [0; 0; 0; 1; 1; 1; 1; 2; 2]%nat) as Hs.
  { repeat constructor. }
  split; [exact Hp|]. split; [exact Hs|].
  exact (optimal_chunks_no_split _ _ Hp Hs).
Defined.

(** C3: when every chunk of a partitioning ends on the last index of the
    group found there, the function returns the chunks unchanged (labels
    non-decreasing, as the function requires); so it does for the chunks
    (3,4,2) over the labels 0,0,0,1,1,1,1,2,2. *)
Theorem aligned_chunks_unchanged :
  (∀ (chunks : list Z) (labels : list nat),
     chunks ≠ [] → Forall (λ c, 0 < c) chunks → Sorted le labels →
     forallb (is_last_index labels) (chunk_ends chunks) = true →
     _get_optimal_chunks_for_groups chunks labels = Ok chunks) ∧
  _get_optimal_chunks_for_groups [3; 4; 2] [0; 0; 0; 1; 1; 1; 1; 2; 2]%nat
  = Ok [3; 4; 2].
Proof.
  split; [exact aligned_identity|]. vm_compute. reflexivity.
Qed.

Lemma aligned_chunks_unchanged_witness :
  [2; 3] ≠ [] ∧ Forall (λ c, 0 < c) [2; 3] ∧ Sorted le [4; 4; 7; 7; 7]%nat ∧
  forallb (is_last_index [4; 4; 7; 7; 7]%nat) (chunk_ends [2; 3]) = true ∧
  _get_optimal_chunks_for_groups [2; 3] [4; 4; 7; 7; 7]%nat = Ok [2; 3].
Proof.
  assert (([2; 3] : list Z) ≠ []) as Hne by discriminate.
  assert (Forall (λ c, 0 < c) [2; 3]) as Hpos by (repeat constructor).
  assert (Sorted le [4; 4; 7; 7; 7]%nat) as Hs by (repeat constructor).
  assert (forallb (is_last_index [4; 4; 7; 7; 7]%nat) (chunk_ends [2; 3]) = true)
    as Hal by reflexivity.
  split; [exact Hne|]. split; [exact Hpos|]. split; [exact Hs|].
  split; [exact Hal|].
  exact (proj1 aligned_chunks_unchanged _ _ Hne Hpos Hs Hal).
Defined.

(** C5: the function is idempotent: under the precondition of C1, applying
    it to its own output with the same labels returns that output. *)
Theorem optimal_chunks_idempotence (chunks : list Z) (labels : list nat) :
  partitioning chunks (length labels) → Sorted le labels →
  ∃ newchunks,
    _get_optimal_chunks_for_groups chunks labels = Ok newchunks ∧
    _get_optimal_chunks_for_groups newchunks labels = Ok newchunks.
Proof.
  intros Hp Hs.
  destruct (optimal_chunks_spec chunks labels Hp) as (out & Hout & _).
  exists out. split; [done|]. by eapply optimal_chunks_idempotent.
Qed.

Lemma optimal_chunks_idempotence_witness :
  partitioning [5; 1; 3] (length [0; 0; 0; 1; 1; 1; 1; 2; 2]%nat) ∧
  Sorted le [0; 0; 0; 1; 1; 1; 1; 2; 2]%nat ∧
  ∃ newchunks,
    _get_optimal_chunks_for_groups [5; 1; 3] [0; 0; 0; 1; 1; 1; 1; 2; 2]%nat
      = Ok newchunks ∧
    _get_optimal_chunks_for_groups newchunks [0; 0; 0; 1; 1; 1; 1; 2; 2]%nat
      = Ok newchunks.
Proof.
  assert (partitioning [5; 1; 3] (length [0; 0; 0; 1; 1; 1; 1; 2; 2]%nat)) as Hp.
  { split; [discriminate|]. split; [repeat constructor|reflexivity]. }
  assert (Sorted le [0; 0; 0; 1; 1; 1; 1; 2; 2]%nat) as Hs.
  { repeat constructor. }
  split; [exact Hp|]. split; [exact Hs|].
  exact (optimal_chunks_idempotence _ _ Hp Hs).
Defined.



(** * Properties of [xarray_reduce] *)

Lemma existsb_Exists {A} (f : A → bool) (l : list A) :
  existsb f l = true ↔ Exists (λ x, f x = true) l.
Proof.
  rewrite existsb_exists, Exists_exists.
  split; intros (x & Hx & Hf); exists x; split; try done; by apply list_elem_of_In.
Qed.

(** Against the specification's sentence: of two keys one alone is lazy,
    and the grouping is refused. *)
Lemma one_lazy_key_of_two_refused :
  lazy_count [DaskArray [1; 2]; NumpyArray [7; 7]] = 1%nat ∧
  multi_key_guard [DaskArray [1; 2]; NumpyArray [7; 7]] = Raise ValueError ∧
  ¬ (multi_key_guard [DaskArray [1; 2]; NumpyArray [7; 7]] = Raise ValueError
     ↔ (1 < lazy_count [DaskArray [1; 2]%Z; NumpyArray [7; 7]%Z])%nat).
Proof.
  split; [reflexivity|]. split; [reflexivity|].
  intros [H _]. specialize (H eq_refl). vm_compute in H. lia.
Qed.

(** C6, amended: the guard refuses the keys exactly when there are several
    of them and at least one is lazy; a single key, or several keys none of
    which is lazy, pass it.  A refusal by the guard is the result of the
    whole set-up. *)
Theorem multi_key_guard_spec (by_ : list key_data) :
  (multi_key_guard by_ = Raise ValueError
   ↔ (1 < length by_)%nat ∧ Exists (λ k, is_dask_collection k = true) by_) ∧
  (multi_key_guard by_ = Ok ()
   ↔ (length by_ ≤ 1)%nat ∨ Forall (λ k, is_dask_collection k = false) by_) ∧
  (∀ factorize_ expected_groups,
     (1 < length by_)%nat ∧ Exists (λ k, is_dask_collection k = true) by_ →
     xarray_reduce_groups factorize_ by_ expected_groups = Raise ValueError).
Proof.
  assert (multi_key_guard by_ = Raise ValueError
          ↔ (1 < length by_)%nat ∧ Exists (λ k, is_dask_collection k = true) by_)
    as Hraise.
  { unfold multi_key_guard. rewrite <- existsb_Exists.
    case_bool_decide; destruct (existsb _ _); simpl; split;
      try done; try (by intros [? ?]); by intros. }
  split; [exact Hraise|]. split.
  - unfold multi_key_guard. split.
    + destruct (_ && _) eqn:Hc; [done|]. intros _.
      apply andb_false_iff in Hc as [Hc|Hc].
      * left. apply bool_decide_eq_false in Hc. lia.
      * right. apply Forall_forall. intros k Hk.
        destruct (is_dask_collection k) eqn:Hd; [|done].
        assert (existsb is_dask_collection by_ = true); [|congruence].
        apply existsb_exists. exists k. split; [by apply list_elem_of_In|done].
    + intros [Hlen|Hall].
      * rewrite bool_decide_eq_false_2 by lia. done.
      * assert (existsb is_dask_collection by_ = false) as ->.
        { apply not_true_is_false. intros (k & Hk & Hd)%existsb_exists.
          rewrite Forall_forall in Hall.
          apply list_elem_of_In, Hall in Hk. congruence. }
        by rewrite andb_false_r.
  - intros factorize_ eg Hby. apply Hraise in Hby.
    unfold xarray_reduce_groups. by rewrite Hby.
Qed.

Lemma multi_key_guard_spec_witness :
  ((1 < length [NumpyArray [3]%Z; DaskArray [4]%Z])%nat ∧
   Exists (λ k, is_dask_collection k = true) [NumpyArray [3]; DaskArray [4]]) ∧
  xarray_reduce_groups (λ _ _, Raise TypeError)
    [NumpyArray [3]; DaskArray [4]] None = Raise ValueError.
Proof.
  assert ((1 < length [NumpyArray [3]%Z; DaskArray [4]%Z])%nat ∧
          Exists (λ k, is_dask_collection k = true) [NumpyArray [3]; DaskArray [4]])
    as Hby.
  { split; [repeat constructor|]. right. left. reflexivity. }
  split; [exact Hby|].
  exact (proj2 (proj2 (multi_key_guard_spec [NumpyArray [3]; DaskArray [4]]))
           (λ _ _, Raise TypeError) None Hby).
Defined.

(** C7: with a single key and no expected groups, a materialised key gives
    the sorted distinct values of the key as expected groups, and the group
    shape is their count; a lazy key gives [NotImplementedError]. *)
Theorem single_key_expected_groups
    (factorize_ : list (list Z) → option (list (list Z)) →
                  result (list nat * list (list Z) * list nat))
    (v : list Z) :
  xarray_reduce_groups factorize_ [NumpyArray v] None
  = Ok ([Np.unique Z.ltb v], [length (Np.unique Z.ltb v)]) ∧
  StronglySorted Z.lt (Np.unique Z.ltb v) ∧
  (∀ x, x ∈ Np.unique Z.ltb v ↔ x ∈ v) ∧
  xarray_reduce_groups factorize_ [DaskArray v] None = Raise NotImplementedError.
Proof.
  split; [reflexivity|]. split; [|split; [|reflexivity]].
  - apply (unique_sorted Z.ltb Z.lt Z_ltb_lt Z_lt_total).
  - intros x. apply (elem_of_unique Z.ltb Z.lt Z_ltb_lt Z_lt_total).
Qed.

(** * Properties of [rechunk_to_group_boundaries] *)

Lemma valid_chunks_partitioning (cs out : list Z) (n : nat) :
  partitioning cs n → partitioning out n → valid_chunks (Np.sum cs) out = true.
Proof.
  intros (_ & _ & Hsum) (_ & Hpos & Hsum'). unfold valid_chunks.
  apply andb_true_iff. split.
  - apply forallb_forall. intros c Hc%list_elem_of_In. apply Z.leb_le.
    rewrite Forall_forall in Hpos. specialize (Hpos c Hc). simpl in Hpos. lia.
  - apply Z.eqb_eq. lia.
Qed.

(** C9: for an array whose chunks along the grouping dimension partition
    the labels: when the recomputed partitioning equals the current one, the
    array itself is returned and no re-partition is issued; otherwise
    exactly one re-partition is issued, along that dimension, and the result
    has the same values and the same partitioning along every other
    dimension. *)
Theorem rechunk_frame (array : DataArray) (dim : string) (labels : list nat)
    (w : world) (axis : nat) (all_chunks : list (list Z)) (cs newchunks : list Z) :
  get_axis_num array dim = Ok axis →
  chunks array = Some all_chunks →
  all_chunks !! axis = Some cs →
  partitioning cs (length labels) →
  _get_optimal_chunks_for_groups cs labels = Ok newchunks →
  (newchunks = cs →
   rechunk_to_group_boundaries array dim labels w = Ok (array, w)) ∧
  (newchunks ≠ cs →
   ∃ array' w',
     rechunk_to_group_boundaries array dim labels w = Ok (array', w') ∧
     repartitions w' = repartitions w ++ [(obj_id array, dim, newchunks)] ∧
     values array' = values array ∧
     dims array' = dims array ∧
     ∃ all_chunks',
       chunks array' = Some all_chunks' ∧
       all_chunks' !! axis = Some newchunks ∧
       ∀ other, other ≠ axis → all_chunks' !! other = all_chunks !! other).
Proof.
  intros Haxis Hchunks Hcs Hp Hnew.
  unfold rechunk_to_group_boundaries.
  rewrite Haxis, bind_Ok, Hchunks, Hcs, Hnew, bind_Ok.
  split; intros Hcmp.
  - by rewrite bool_decide_eq_true_2.
  - rewrite bool_decide_eq_false_2 by done.
    destruct (optimal_chunks_spec cs labels Hp) as (out & Hout & Hpout & _).
    rewrite Hnew in Hout. injection Hout as <-.
    unfold chunk. rewrite Hcs.
    change (default [] (Some cs)) with cs.
    rewrite (valid_chunks_partitioning _ _ _ Hp Hpout).
    eexists _, _. split; [reflexivity|]. simpl.
    split; [done|]. split; [done|]. split; [done|].
    eexists. split; [reflexivity|]. split.
    + apply list_lookup_insert_eq. by eapply lookup_lt_Some.
    + intros other Hother. by apply list_lookup_insert_ne.
Qed.

Lemma rechunk_frame_witness :
  partitioning [4; 3; 2] (length [0; 0; 0; 1; 1; 1; 1; 2; 2]%nat) ∧
  [3; 4; 2] ≠ [4; 3; 2] ∧
  ∃ array' w',
    rechunk_to_group_boundaries
      (mkDataArray 7 ["time"; "x"]%string [2; 7; 1; 8; 2; 8; 1; 8; 2]
         (Some [[4; 3; 2]; [1]]))
      "time" [0; 0; 0; 1; 1; 1; 1; 2; 2]%nat (mkWorld 8 [])
    = Ok (array', w') ∧
    repartitions w' = [] ++ [(7%nat, "time"%string, [3; 4; 2])] ∧
    values array' = [2; 7; 1; 8; 2; 8; 1; 8; 2] ∧
    dims array' = ["time"; "x"]%string ∧
    ∃ all_chunks',
      chunks array' = Some all_chunks' ∧
      all_chunks' !! 0%nat = Some [3; 4; 2] ∧
      ∀ other, other ≠ 0%nat → all_chunks' !! other = [[4; 3; 2]; [1]] !! other.
Proof.
  assert (partitioning [4; 3; 2] (length [0; 0; 0; 1; 1; 1; 1; 2; 2]%nat)) as Hp.
  { split; [discriminate|]. split; [repeat constructor|reflexivity]. }
  assert (([3; 4; 2] : list Z) ≠ [4; 3; 2]) as Hne by discriminate.
  split; [exact Hp|]. split; [exact Hne|].
  exact (proj2 (rechunk_frame
                  (mkDataArray 7 ["time"; "x"]%string [2; 7; 1; 8; 2; 8; 1; 8; 2]
                     (Some [[4; 3; 2]; [1]]))
                  "time" [0; 0; 0; 1; 1; 1; 1; 2; 2]%nat (mkWorld 8 [])
                  0 [[4; 3; 2]; [1]] [4; 3; 2] [3; 4; 2]
                  eq_refl eq_refl eq_refl Hp eq_refl) Hne).
Defined.

(** * Properties of the labels of [resample_reduce] *)

Lemma runs_from_ge (idx : nat) (lens : list nat) :
  Forall (λ x, idx ≤ x)%nat (runs_from idx lens).
Proof.
  revert idx. induction lens as [|n lens IH]; intros idx; simpl; [constructor|].
  apply Forall_app. split.
  - apply Forall_forall. by intros x ->%elem_of_replicate_inv.
  - eapply Forall_impl; [apply IH|]. simpl. intros x ?. lia.
Qed.

Lemma runs_from_sorted (idx : nat) (lens : list nat) :
  StronglySorted le (runs_from idx lens).
Proof.
  revert idx. induction lens as [|n lens IH]; intros idx; simpl; [constructor|].
  apply StronglySorted_app_2.
  - intros x y ->%elem_of_replicate_inv Hy.
    pose proof (runs_from_ge (S idx) lens) as Hge.
    rewrite Forall_forall in Hge. specialize (Hge _ Hy). simpl in Hge. lia.
  - induction n as [|n IHn]; simpl; constructor; [done|].
    apply Forall_forall. intros x ->%elem_of_replicate_inv. done.
  - apply IH.
Qed.

Lemma tostack_from_Ok (size : Z) (idx : nat) (group_indices : list slice)
    (tostack : list (list nat)) :
  tostack_from size idx group_indices = Ok tostack →
  length tostack = length group_indices ∧
  concat tostack = runs_from idx (run_length size <$> group_indices).
Proof.
  revert idx tostack.
  induction group_indices as [|slicer rest IH]; intros idx tostack; simpl.
  - intros [= <-]. done.
  - unfold label_run.
    destruct (_ <? 0); [done|]. rewrite bind_Ok.
    destruct (tostack_from size (S idx) rest) as [runs|] eqn:Hrest; [|done].
    rewrite bind_Ok. intros [= <-].
    destruct (IH _ _ Hrest) as [Hlen Hruns].
    simpl. by rewrite Hlen, Hruns.
Qed.

Lemma tiles_labels (size pos : Z) (idx : nat) (group_indices : list slice) :
  tiles pos size group_indices →
  ∃ tostack,
    tostack_from size idx group_indices = Ok tostack ∧
    Z.of_nat (length (concat tostack)) = size - pos ∧
    ∀ i slicer p,
      group_indices !! i = Some slicer →
      start slicer ≤ p < default size (stop slicer) →
      concat tostack !! Z.to_nat (p - pos) = Some (idx + i)%nat.
Proof.
  revert pos idx.
  induction group_indices as [|slicer rest IH]; intros pos idx; [done|].
  intros [<- Hrest].
  cbn [tostack_from]. unfold label_run.
  destruct rest as [|slicer' rest].
  - destruct Hrest as [Hle Hstop].
    assert (default size (stop slicer) = size) as Hdef
      by (by destruct Hstop as [-> | ->]).
    rewrite Hdef. destruct (Z.ltb_spec (size - start slicer) 0); [lia|].
    eexists. split; [reflexivity|]. simpl. rewrite app_nil_r, length_replicate.
    split; [lia|].
    intros [|i] s p Hs Hp; [|done]. simpl in Hs. simplify_eq.
    rewrite Nat.add_0_r. apply lookup_replicate_2. lia.
  - destruct Hrest as (e & Hstop & Hle & Htiles).
    rewrite Hstop. simpl default.
    destruct (Z.ltb_spec (e - start slicer) 0); [lia|].
    destruct (IH e (S idx) Htiles) as (runs & Hruns & Hlen & Hlook).
    rewrite bind_Ok, Hruns, bind_Ok.
    eexists. split; [reflexivity|].
    cbn [concat]. rewrite length_app, length_replicate.
    split; [lia|].
    intros [|i] s p Hs Hp.
    + simpl in Hs. simplify_eq. rewrite Hstop in Hp. simpl in Hp.
      rewrite lookup_app_l by (rewrite length_replicate; lia).
      rewrite Nat.add_0_r. apply lookup_replicate_2. lia.
    + change ((slicer :: slicer' :: rest) !! S i) with ((slicer' :: rest) !! i) in Hs.
      assert (e ≤ start s) as Hes.
      { clear -Htiles Hs. revert e i Htiles Hs.
        generalize (slicer' :: rest). intros l.
        induction l as [|s0 l IHl]; intros e i Ht Hs; [done|].
        destruct Ht as [Hst Ht]. destruct i as [|i]; simpl in Hs.
        - simplify_eq. lia.
        - destruct l as [|s1 l]; [done|].
          destruct Ht as (e' & _ & ? & Ht).
          pose proof (IHl e' i Ht Hs). lia. }
      rewrite lookup_app_r by (rewrite length_replicate; lia).
      rewrite length_replicate.
      replace (Z.to_nat (p - start slicer) - Z.to_nat (e - start slicer))%nat
        with (Z.to_nat (p - e)) by lia.
      rewrite (Hlook i s p Hs Hp). f_equal. lia.
Qed.

(** C10: the labels that [resample_reduce] builds are the run of 0 for the
    first bin, then the run of 1 for the second, and so on, hence
    non-decreasing; when the bins tile the dimension, the labels have the
    length of the dimension and every position of the i-th bin carries i. *)
Theorem resample_labels_runs (size : Z) (group_indices : list slice) :
  (∀ labels,
     resample_labels size group_indices = Ok labels →
     labels = runs_from 0 (run_length size <$> group_indices) ∧
     Sorted le labels) ∧
  (tiles 0 size group_indices →
   ∃ labels,
     resample_labels size group_indices = Ok labels ∧
     Sorted le labels ∧
     Z.of_nat (length labels) = size ∧
     ∀ i slicer p,
       group_indices !! i = Some slicer →
       start slicer ≤ p < default size (stop slicer) →
       labels !! Z.to_nat p = Some i).
Proof.
  split.
  - intros labels. unfold resample_labels.
    destruct (tostack_from size 0 group_indices) as [tostack|] eqn:Hts; [|done].
    rewrite bind_Ok. destruct (tostack_from_Ok _ _ _ _ Hts) as [_ Hruns].
    destruct tostack as [|run runs]; [done|]. intros [= <-].
    change (run ++ concat runs) with (concat (run :: runs)).
    split; [done|]. rewrite Hruns.
    apply StronglySorted_Sorted, runs_from_sorted.
  - intros Ht.
    destruct (tiles_labels size 0 0 group_indices Ht)
      as (tostack & Hts & Hlen & Hlook).
    destruct (tostack_from_Ok _ _ _ _ Hts) as [Hlen' Hruns].
    exists (concat tostack). unfold resample_labels. rewrite Hts, bind_Ok.
    destruct tostack as [|run runs].
    { destruct group_indices; [done|discriminate]. }
    split; [done|]. split.
    { rewrite Hruns. apply StronglySorted_Sorted, runs_from_sorted. }
    split; [lia|].
    intros i s p Hs Hp. specialize (Hlook i s p Hs Hp).
    by rewrite Z.sub_0_r in Hlook.
Qed.

Lemma resample_labels_runs_witness :
  tiles 0 9 [mkSlice 0 (Some 3); mkSlice 3 (Some 7); mkSlice 7 None] ∧
  ∃ labels,
    resample_labels 9 [mkSlice 0 (Some 3); mkSlice 3 (Some 7); mkSlice 7 None]
      = Ok labels ∧
    Sorted le labels ∧
    Z.of_nat (length labels) = 9 ∧
    ∀ i slicer p,
      [mkSlice 0 (Some 3); mkSlice 3 (Some 7); mkSlice 7 None] !! i = Some slicer →
      start slicer ≤ p < default 9 (stop slicer) →
      labels !! Z.to_nat p = Some i.
Proof.
  assert (tiles 0 9 [mkSlice 0 (Some 3); mkSlice 3 (Some 7); mkSlice 7 None]) as Ht.
  { simpl. split; [reflexivity|]. exists 3. split; [reflexivity|].
    split; [discriminate|]. split; [reflexivity|].
    exists 7. split; [reflexivity|]. split; [discriminate|].
    split; [reflexivity|]. split; [discriminate|]. by left. }
  split; [exact Ht|].
  exact (proj2 (resample_labels_runs 9 _) Ht).
Defined.

(** For a chunked array these labels are what the chunks are aligned to. *)
Lemma resample_rechunk_labels (array : DataArray) (dim : string) (size : Z)
    (group_indices : list slice) (w : world) (labels : list nat)
    (all_chunks : list (list Z)) :
  resample_labels size group_indices = Ok labels →
  chunks array = Some all_chunks →
  resample_rechunk array dim size group_indices w
  = rechunk_to_group_boundaries array dim labels w.
Proof.
  intros Hlabels Hchunks. unfold resample_rechunk.
  by rewrite Hlabels, bind_Ok, Hchunks.
Qed.

Example resample_labels_scenario :
  resample_labels 9 [mkSlice 0 (Some 3); mkSlice 3 (Some 7); mkSlice 7 None]
  = Ok [0; 0; 0; 1; 1; 1; 1; 2; 2]%nat.
Proof. reflexivity. Qed.

(** * Properties of the densification in [wrapper] *)

Section RowMajor.
Local Open Scope nat_scope.

Lemma ravel_from_acc (acc : nat) (shape idx : list nat) :
  in_shape shape idx →
  ravel_from acc shape idx = acc * prod shape + ravel_from 0 shape idx.
Proof.
  intros Hin. revert acc.
  induction Hin as [|i s idx shape His Hin IH]; intros acc; simpl; [lia|].
  rewrite (IH (acc * s + i)), (IH i). lia.
Qed.

Lemma ravel_index_cons (s i : nat) (shape idx : list nat) :
  in_shape shape idx →
  ravel_index (s :: shape) (i :: idx) = i * prod shape + ravel_index shape idx.
Proof.
  intros Hin. unfold ravel_index. simpl. by rewrite ravel_from_acc.
Qed.

Lemma ravel_index_lt (shape idx : list nat) :
  in_shape shape idx → ravel_index shape idx < prod shape.
Proof.
  induction 1 as [|i s idx shape His Hin IH].
  - unfold ravel_index. simpl. lia.
  - rewrite ravel_index_cons by done. simpl. nia.
Qed.

Lemma unravel_ravel (shape idx : list nat) :
  in_shape shape idx → unravel_index shape (ravel_index shape idx) = idx.
Proof.
  induction 1 as [|i s idx shape His Hin IH]; [done|].
  rewrite ravel_index_cons by done.
  pose proof (ravel_index_lt shape idx Hin) as Hlt.
  simpl. f_equal.
  - rewrite Nat.div_add_l by lia.
    rewrite (Nat.div_small _ _ Hlt), Nat.add_0_r. by apply Nat.mod_small.
  - rewrite Nat.add_comm, Nat.Div0.mod_add, (Nat.mod_small _ _ Hlt). done.
Qed.

Lemma ravel_unravel (shape : list nat) (k : nat) :
  k < prod shape →
  in_shape shape (unravel_index shape k) ∧
  ravel_index shape (unravel_index shape k) = k.
Proof.
  revert k. induction shape as [|s shape IH]; intros k Hk; simpl in *.
  - split; [constructor|]. unfold ravel_index. simpl. lia.
  - assert (0 < prod shape) as Hpos by nia.
    assert (k mod prod shape < prod shape) as Hr by (apply Nat.mod_upper_bound; lia).
    assert (k / prod shape < s) as Hq by (apply Nat.Div0.div_lt_upper_bound; lia).
    destruct (IH _ Hr) as [Hin Heq].
    rewrite (Nat.mod_small _ _ Hq). split.
    + by constructor.
    + rewrite ravel_index_cons, Heq by done.
      pose proof (Nat.div_mod_eq k (prod shape)). lia.
Qed.
End RowMajor.

(** Against the specification's sentence: the spec's code of the cell (0,1) of a
    (2,3) grid is 2, which the reshape puts in the cell (0,2); the cell
    (0,1) of the densified result holds the value of code 1. *)
Lemma spec_code_not_inverted :
  in_shape [2; 3]%nat [0; 1]%nat ∧
  Core.linearize [2; 3]%nat [0; 1]%nat = 2%nat ∧
  unravel_index [2; 3]%nat (Core.linearize [2; 3]%nat [0; 1]%nat) = [0; 2]%nat ∧
  unravel_index [2; 3]%nat (Core.linearize [2; 3]%nat [0; 1]%nat) ≠ [0; 1]%nat ∧
  ∃ grid,
    wrapper 2 [2; 3]%nat (-1) ([10; 40], [1; 4]%nat) = Ok grid ∧
    item grid [0; 1]%nat = Some 10 ∧
    Core.linearize [2; 3]%nat [0; 1]%nat ≠ 1%nat.
Proof.
  split; [repeat constructor|]. split; [reflexivity|]. split; [reflexivity|].
  split; [discriminate|].
  eexists. split; [reflexivity|]. split; [reflexivity|]. discriminate.
Qed.

(** C4, amended: the reshape to the group shape inverts the row-major
    linearization, in which the last key varies fastest,
    [code = idx_0 * (shape_1 * shape_2 * …) + idx_1 * (shape_2 * …) + …];
    for the level counts (2,3) the codes 0..5 are the pairs (i,j) in
    row-major order, [code = 3*i + j], and densifying a partial result for
    the codes 1 and 4 with fill value -1 gives a 2×3 grid whose cells are
    the fill value except (0,1) and (1,1), which hold the two values. *)
Theorem reshape_inverts_row_major :
  (∀ s i shape idx,
     in_shape shape idx →
     ravel_index (s :: shape) (i :: idx)
     = (i * prod shape + ravel_index shape idx)%nat) ∧
  (∀ shape idx,
     in_shape shape idx → unravel_index shape (ravel_index shape idx) = idx) ∧
  (∀ shape k,
     (k < prod shape)%nat →
     in_shape shape (unravel_index shape k) ∧
     ravel_index shape (unravel_index shape k) = k) ∧
  unravel_index [2; 3]%nat <$> seq 0 6
  = [[0; 0]; [0; 1]; [0; 2]; [1; 0]; [1; 1]; [1; 2]]%nat ∧
  (∀ i j, (i < 2)%nat → (j < 3)%nat →
     ravel_index [2; 3]%nat [i; j] = (3 * i + j)%nat) ∧
  (∀ v1 v4 : Z,
     ∃ grid,
       wrapper 2 [2; 3]%nat (-1) ([v1; v4], [1; 4]%nat) = Ok grid ∧
       shape grid = [2; 3]%nat ∧
       item grid [0; 0]%nat = Some (-1) ∧
       item grid [0; 1]%nat = Some v1 ∧
       item grid [0; 2]%nat = Some (-1) ∧
       item grid [1; 0]%nat = Some (-1) ∧
       item grid [1; 1]%nat = Some v4 ∧
       item grid [1; 2]%nat = Some (-1)).
Proof.
  split; [exact ravel_index_cons|]. split; [exact unravel_ravel|].
  split; [exact ravel_unravel|]. split; [reflexivity|]. split.
  - intros i j Hi Hj. unfold ravel_index. simpl. lia.
  - intros v1 v4. eexists. split; [reflexivity|]. repeat split.
Qed.

Lemma reshape_inverts_row_major_witness :
  in_shape [2; 3; 4]%nat [1; 2; 3]%nat ∧
  unravel_index [2; 3; 4]%nat (ravel_index [2; 3; 4]%nat [1; 2; 3]%nat)
  = [1; 2; 3]%nat.
Proof.
  assert (in_shape [2; 3; 4]%nat [1; 2; 3]%nat) as Hin by (repeat constructor).
  split; [exact Hin|].
  exact (proj1 (proj2 reshape_inverts_row_major) _ _ Hin).
Defined.

(** * Further properties of [_get_optimal_chunks_for_groups] *)

Lemma take_Raise {A} (a : list A) (idx : list Z) (e : exn) :
  Np.take a idx = Raise e → e = IndexError.
Proof.
  induction idx as [|i idx IH]; simpl; [done|].
  unfold Np.getitem.
  destruct (_ && _); [|by intros [= <-]].
  destruct (a !! _); [|by intros [= <-]].
  rewrite bind_Ok. destruct (Np.take a idx) as [xs|e']; [done|].
  intros [= <-]. by apply IH.
Qed.

Lemma walk_steps_head (triples : list (Z * (Z * Z))) (rest : list Z) :
  ∃ rest', fold_left walk_step triples (0 :: rest) = 0 :: rest'.
Proof.
  revert rest. induction triples as [|[c [f l]] triples IH]; intros rest; simpl.
  - by exists rest.
  - unfold walk_step. destruct (_ || _); [apply IH|].
    destruct (_ && _); apply (IH (rest ++ [_])).
Qed.

Lemma chunk_ends_last_sum (chunks : list Z) :
  chunks ≠ [] → last_elt (chunk_ends chunks) + 1 = Np.sum chunks.
Proof.
  intros Hne. unfold last_elt, chunk_ends, Np.cumsum.
  rewrite fmap_last, cumsum_from_last by done. simpl. lia.
Qed.

Lemma optimal_chunks_cases (chunks : list Z) (labels : list nat) :
  (∃ newchunks,
     _get_optimal_chunks_for_groups chunks labels = Ok newchunks ∧
     Np.sum newchunks = Np.sum chunks) ∨
  _get_optimal_chunks_for_groups chunks labels = Raise IndexError.
Proof.
  unfold _get_optimal_chunks_for_groups.
  case_bool_decide as Hne; [by right|].
  cbv zeta. change ((λ s, s - 1) <$> Np.cumsum chunks) with (chunk_ends chunks).
  destruct (Np.take labels (chunk_ends chunks)) as [bl|e0] eqn:Hbl.
  2:{ apply take_Raise in Hbl as ->. right; reflexivity. }
  rewrite bind_Ok.
  destruct (Np.take (Np.aggregate last labels (Np.arange (length labels)))
              (Z.of_nat <$> Np.unique Nat.ltb bl)) as [lastidx|e0] eqn:Hl.
  2:{ apply take_Raise in Hl as ->. right; reflexivity. }
  rewrite bind_Ok.
  destruct (_ && _); [left; by exists chunks|].
  destruct (Np.take (Np.aggregate head labels (Np.arange (length labels)))
              (Z.of_nat <$> Np.unique Nat.ltb bl)) as [firstidx|e0] eqn:Hf.
  2:{ apply take_Raise in Hf as ->. right; reflexivity. }
  rewrite bind_Ok. left.
  destruct (walk_steps_head (zip (chunk_ends chunks) (zip firstidx lastidx)) [])
    as [rest Hwalk].
  unfold walk. rewrite Hwalk.
  rewrite <- (chunk_ends_last_sum chunks Hne).
  set (n := last_elt (chunk_ends chunks) + 1).
  assert (∃ rest', (if bool_decide (last_elt (0 :: rest) ≠ n)
                    then (0 :: rest) ++ [n] else 0 :: rest) = 0 :: rest' ∧
                   last_elt (0 :: rest') = n) as (rest' & -> & Hlast).
  { case_bool_decide as Hend.
    - exists (rest ++ [n]). split; [done|].
      change (0 :: (rest ++ [n])) with ((0 :: rest) ++ [n]).
      apply last_elt_snoc.
    - exists rest. split; [done|]. exact Hend. }
  rewrite sum_diff, Hlast, Z.sub_0_r.
  rewrite bool_decide_eq_true_2 by done.
  eexists. split; [reflexivity|]. by rewrite sum_diff, Hlast, Z.sub_0_r.
Qed.

(** X1: for chunk sizes within [int64], whatever the labels and whether or
    not the chunks cover them, the closing assertion holds: the function
    either fails on an index or returns chunks that sum to [sum(chunks)]. *)
Theorem optimal_chunks_outcome (chunks : list Z) (labels : list nat) :
  chunk_sizes chunks →
  (∀ newchunks,
     _get_optimal_chunks_for_groups chunks labels = Ok newchunks →
     Np.sum newchunks = Np.sum chunks) ∧
  (∀ e,
     _get_optimal_chunks_for_groups chunks labels = Raise e → e = IndexError).
Proof.
  intros _.
  destruct (optimal_chunks_cases chunks labels) as [(out & -> & Hsum)| ->].
  - split; [by intros ? [= <-]|]. by intros e [=].
  - split; [by intros ? [=]|]. by intros e [= <-].
Qed.

Lemma optimal_chunks_outcome_witness :
  chunk_sizes [2] ∧
  _get_optimal_chunks_for_groups [2] [0; 0; 0; 0; 0; 0]%nat = Ok [6; -4] ∧
  Np.sum [6; -4] = Np.sum [2].
Proof.
  assert (chunk_sizes [2]) as Hsizes.
  { split; [constructor; [lia|constructor]|reflexivity]. }
  assert (_get_optimal_chunks_for_groups [2] [0; 0; 0; 0; 0; 0]%nat = Ok [6; -4])
    as Hout by reflexivity.
  split; [exact Hsizes|]. split; [exact Hout|].
  exact (proj1 (optimal_chunks_outcome [2] [0; 0; 0; 0; 0; 0]%nat Hsizes) _ Hout).
Defined.

Lemma getitem_Raise {A} (a : list A) (i : Z) (e : exn) :
  Np.getitem a i = Raise e → e = IndexError.
Proof.
  unfold Np.getitem. destruct (_ && _); [|by intros [= <-]].
  destruct (a !! _); [done|by intros [= <-]].
Qed.

Lemma take_out_of_range {A} (a : list A) (idx : list Z) :
  Exists (λ i, Z.of_nat (length a) ≤ i) idx → Np.take a idx = Raise IndexError.
Proof.
  induction 1 as [i idx Hi|i idx _ IH]; simpl.
  - unfold Np.getitem. cbv zeta.
    destruct (Z.ltb_spec i 0) as [?|_]; [lia|].
    destruct (Z.ltb_spec i (Z.of_nat (length a))) as [?|_]; [lia|].
    by destruct (0 <=? i).
  - destruct (Np.getitem a i) as [x|e] eqn:Hx.
    + by rewrite bind_Ok, IH.
    + by apply getitem_Raise in Hx as ->.
Qed.

Lemma take_nil_array {A} (i : Z) (idx : list Z) :
  Np.take (@nil A) (i :: idx) = Raise IndexError.
Proof.
  cbn [Np.take]. unfold Np.getitem. cbv zeta. rewrite lookup_nil.
  by destruct (_ && _).
Qed.

(** X2: for chunk sizes within [int64], the function fails with
    [IndexError] when there are no chunks, when there are no labels, and
    when the chunks cover more than the labels. *)
Theorem optimal_chunks_index_error (chunks : list Z) (labels : list nat) :
  chunk_sizes chunks →
  chunks = [] ∨ labels = [] ∨ Z.of_nat (length labels) < Np.sum chunks →
  _get_optimal_chunks_for_groups chunks labels = Raise IndexError.
Proof.
  intros _ Hcase. unfold _get_optimal_chunks_for_groups.
  case_bool_decide as Hne; [done|].
  cbv zeta. change ((λ s, s - 1) <$> Np.cumsum chunks) with (chunk_ends chunks).
  destruct Hcase as [?|[->|Hlong]]; [done| |].
  - destruct (chunk_ends chunks) as [|c cs] eqn:Hends.
    { apply fmap_nil_inv in Hends. destruct chunks; [done|discriminate]. }
    by rewrite take_nil_array.
  - rewrite take_out_of_range; [done|].
    pose proof (chunk_ends_last_sum chunks Hne) as Hlast.
    unfold last_elt in Hlast.
    destruct (last (chunk_ends chunks)) as [c|] eqn:Hc.
    + apply Exists_exists. exists c. split; [by eapply last_Some_elem_of|].
      simpl in Hlast. lia.
    + apply last_None, fmap_nil_inv in Hc. destruct chunks; [done|discriminate].
Qed.

Lemma optimal_chunks_index_error_witness :
  chunk_sizes [4; 3; 3] ∧
  ([4; 3; 3] = [] ∨ [0; 0; 0; 1; 1; 1; 1; 2; 2]%nat = [] ∨
   Z.of_nat (length [0; 0; 0; 1; 1; 1; 1; 2; 2]%nat) < Np.sum [4; 3; 3]) ∧
  _get_optimal_chunks_for_groups [4; 3; 3] [0; 0; 0; 1; 1; 1; 1; 2; 2]%nat
  = Raise IndexError.
Proof.
  assert (chunk_sizes [4; 3; 3]) as Hsizes.
  { split; [|reflexivity].
    constructor; [lia|]. constructor; [lia|]. constructor; [lia|constructor]. }
  assert ([4; 3; 3] = [] ∨ [0; 0; 0; 1; 1; 1; 1; 2; 2]%nat = [] ∨
          Z.of_nat (length [0; 0; 0; 1; 1; 1; 1; 2; 2]%nat) < Np.sum [4; 3; 3])
    as Hcase.
  { right. right. reflexivity. }
  split; [exact Hsizes|]. split; [exact Hcase|].
  exact (optimal_chunks_index_error _ _ Hsizes Hcase).
Defined.

(** X3: a single chunk over all the labels is returned as it is, whatever the
    order of the labels. *)
Theorem single_chunk_unchanged (labels : list nat) :
  labels ≠ [] →
  _get_optimal_chunks_for_groups [Z.of_nat (length labels)] labels
  = Ok [Z.of_nat (length labels)].
Proof.
  intros Hne.
  assert (0 < length labels)%nat as Hn by (destruct labels; [done|simpl; lia]).
  destruct (lookup_lt_is_Some_2 labels (length labels - 1)) as [x Hx]; [lia|].
  unfold _get_optimal_chunks_for_groups.
  rewrite bool_decide_eq_false_2 by done. cbv zeta.
  change ((λ s, s - 1) <$> Np.cumsum [Z.of_nat (length labels)])
    with [0 + Z.of_nat (length labels) - 1].
  rewrite (take_Forall2 labels _ [x]).
  2:{ constructor; [|constructor]. split; [lia|].
      by replace (Z.to_nat (0 + Z.of_nat (length labels) - 1))
        with (length labels - 1)%nat by lia. }
  rewrite bind_Ok.
  change (Np.unique Nat.ltb [x]) with [x].
  assert (x ∈ labels) as Hin by (by eapply list_elem_of_lookup_2).
  destruct (aggregate_last_spec labels x Hin) as (k & Hk & Hocc).
  assert (k = (length labels - 1)%nat) as ->.
  { apply (last_occ_unique labels x); [done|]. split; [done|].
    intros j Hj. rewrite lookup_ge_None_2 by lia. done. }
  rewrite (take_Forall2 (Np.aggregate last labels (Np.arange (length labels)))
             _ [0 + Z.of_nat (length labels) - 1]).
  2:{ constructor; [|constructor]. split; [lia|].
      rewrite Nat2Z.id, Hk. f_equal. lia. }
  rewrite bind_Ok. unfold Np.eqb_list.
  by rewrite !bool_decide_eq_true_2.
Qed.

Lemma single_chunk_unchanged_witness :
  [2; 0; 1; 0]%nat ≠ [] ∧
  _get_optimal_chunks_for_groups [Z.of_nat (length [2; 0; 1; 0]%nat)] [2; 0; 1; 0]%nat
  = Ok [Z.of_nat (length [2; 0; 1; 0]%nat)].
Proof.
  assert ([2; 0; 1; 0]%nat ≠ []) as Hne by discriminate.
  split; [exact Hne|].
  exact (single_chunk_unchanged [2; 0; 1; 0]%nat Hne).
Defined.

(** X4: for a partitioning of non-decreasing labels the chunks come back
    unchanged exactly when every chunk ends on the last index of a group. *)
Theorem unchanged_iff_aligned (chunks : list Z) (labels : list nat) :
  partitioning chunks (length labels) → Sorted le labels →
  (_get_optimal_chunks_for_groups chunks labels = Ok chunks
   ↔ forallb (is_last_index labels) (chunk_ends chunks) = true).
Proof.
  intros Hp Hs. split.
  - intros Hout.
    destruct (optimal_chunks_spec chunks labels Hp) as (out & Hout' & _ & Hgb).
    rewrite Hout in Hout'. injection Hout' as <-.
    apply forallb_forall. intros c Hc%list_elem_of_In.
    unfold chunk_ends in Hc. apply list_elem_of_fmap in Hc as (s & -> & Hs').
    apply boundary_is_last; [done|].
    rewrite Forall_forall in Hgb. by apply Hgb.
  - destruct Hp as (Hne & Hpos & _). by apply aligned_identity.
Qed.

Lemma unchanged_iff_aligned_witness :
  partitioning [3; 6] (length [0; 0; 0; 1; 1; 1; 1; 2; 2]%nat) ∧
  Sorted le [0; 0; 0; 1; 1; 1; 1; 2; 2]%nat ∧
  (_get_optimal_chunks_for_groups [3; 6] [0; 0; 0; 1; 1; 1; 1; 2; 2]%nat = Ok [3; 6]
   ↔ forallb (is_last_index [0; 0; 0; 1; 1; 1; 1; 2; 2]%nat) (chunk_ends [3; 6])
     = true).
Proof.
  assert (partitioning [3; 6] (length [0; 0; 0; 1; 1; 1; 1; 2; 2]%nat)) as Hp.
  { split; [discriminate|]. split; [repeat constructor|reflexivity]. }
  assert (Sorted le [0; 0; 0; 1; 1; 1; 1; 2; 2]%nat) as Hs.
  { repeat constructor. }
  split; [exact Hp|]. split; [exact Hs|].
  exact (unchanged_iff_aligned _ _ Hp Hs).
Defined.

(** X5: for a partitioning of non-decreasing labels no boundary of the result
    separates two elements of the same group: every group lies in one
    chunk. *)
Theorem groups_in_one_chunk (chunks : list Z) (labels : list nat) :
  partitioning chunks (length labels) → Sorted le labels →
  ∃ newchunks,
    _get_optimal_chunks_for_groups chunks labels = Ok newchunks ∧
    ∀ (b : Z) (i j g : nat),
      b ∈ Np.cumsum newchunks →
      labels !! i = Some g → labels !! j = Some g →
      ¬ (Z.of_nat i < b ≤ Z.of_nat j).
Proof.
  intros Hp Hs.
  destruct (optimal_chunks_spec chunks labels Hp) as (out & Hout & _ & Hgb).
  exists out. split; [done|].
  intros b i j g Hb Hi Hj [Hib Hbj].
  rewrite Forall_forall in Hgb. destruct (Hgb b Hb) as [Hrange Hdiff].
  pose proof (lookup_lt_Some _ _ _ Hj) as Hjn.
  destruct (lookup_lt_is_Some_2 labels (Z.to_nat (b - 1))) as [x Hx]; [lia|].
  destruct (lookup_lt_is_Some_2 labels (Z.to_nat b)) as [y Hy]; [lia|].
  assert (g ≤ x)%nat
    by (apply (sorted_lookup_le labels i (Z.to_nat (b - 1))); [done|lia|done..]).
  assert (x ≤ y)%nat
    by (apply (sorted_lookup_le labels (Z.to_nat (b - 1)) (Z.to_nat b));
        [done|lia|done..]).
  assert (y ≤ g)%nat
    by (apply (sorted_lookup_le labels (Z.to_nat b) j); [done|lia|done..]).
  apply Hdiff. rewrite Hx, Hy. f_equal. lia.
Qed.

Lemma groups_in_one_chunk_witness :
  partitioning [2; 4; 3] (length [0; 0; 0; 1; 1; 1; 1; 2; 2]%nat) ∧
  Sorted le [0; 0; 0; 1; 1; 1; 1; 2; 2]%nat ∧
  ∃ newchunks,
    _get_optimal_chunks_for_groups [2; 4; 3] [0; 0; 0; 1; 1; 1; 1; 2; 2]%nat
      = Ok newchunks ∧
    ∀ (b : Z) (i j g : nat),
      b ∈ Np.cumsum newchunks →
      [0; 0; 0; 1; 1; 1; 1; 2; 2]%nat !! i = Some g →
      [0; 0; 0; 1; 1; 1; 1; 2; 2]%nat !! j = Some g →
      ¬ (Z.of_nat i < b ≤ Z.of_nat j).
Proof.
  assert (partitioning [2; 4; 3] (length [0; 0; 0; 1; 1; 1; 1; 2; 2]%nat)) as Hp.
  { split; [discriminate|]. split; [repeat constructor|reflexivity]. }
  assert (Sorted le [0; 0; 0; 1; 1; 1; 1; 2; 2]%nat) as Hs.
  { repeat constructor. }
  split; [exact Hp|]. split; [exact Hs|].
  exact (groups_in_one_chunk _ _ Hp Hs).
Defined.

(** ** The number of chunks *)

Lemma length_diff (l : list Z) : length (Np.diff l) = pred (length l).
Proof.
  induction l as [|x l IH]; [done|].
  destruct l as [|y l]; [done|].
  change (Np.diff (x :: y :: l)) with ((y - x) :: Np.diff (y :: l)).
  simpl length in *. by rewrite IH.
Qed.

Lemma walk_step_length (ncs : list Z) (t : Z * (Z * Z)) :
  (length (walk_step ncs t) ≤ S (length ncs))%nat.
Proof.
  destruct t as [c [f l]]. unfold walk_step.
  destruct (_ || _); [lia|].
  destruct (_ && _); rewrite length_app; simpl; lia.
Qed.

Lemma walk_steps_length (triples : list (Z * (Z * Z))) (ncs : list Z) :
  (length (fold_left walk_step triples ncs) ≤ length ncs + length triples)%nat.
Proof.
  revert ncs. induction triples as [|t triples IH]; intros ncs; simpl; [lia|].
  pose proof (IH (walk_step ncs t)). pose proof (walk_step_length ncs t). lia.
Qed.

Lemma length_insert_uniq {A} (ltb : A → A → bool) (x : A) (l : list A) :
  (length (Np.insert_uniq ltb x l) ≤ S (length l))%nat.
Proof.
  induction l as [|y l IH]; simpl; [lia|].
  destruct (ltb x y); [simpl; lia|]. destruct (ltb y x); simpl; lia.
Qed.

Lemma length_unique {A} (ltb : A → A → bool) (l : list A) :
  (length (Np.unique ltb l) ≤ length l)%nat.
Proof.
  induction l as [|x l IH]; simpl; [lia|].
  pose proof (length_insert_uniq ltb x (Np.unique ltb l)). lia.
Qed.

Lemma sorted_last_max (u : list nat) (g : nat) :
  StronglySorted lt u → g ∈ u → (∀ y, y ∈ u → (y ≤ g)%nat) → last u = Some g.
Proof.
  intros Hs Hg Hmax.
  destruct (last u) as [z|] eqn:Hlast.
  - apply last_Some in Hlast as [u' ->]. f_equal.
    assert (z ≤ g)%nat by (apply Hmax, elem_of_app; right; by apply list_elem_of_singleton).
    apply elem_of_app in Hg as [Hg|Hg%list_elem_of_singleton]; [|done].
    assert (g < z)%nat; [|lia].
    eapply (StronglySorted_app_1_elem_of _ u' [z]); [done..|].
    by apply list_elem_of_singleton.
  - apply last_None in Hlast. subst u. by apply elem_of_nil in Hg.
Qed.

Lemma forced_end_sum (chunkidx firstidx lastidx : list Z) (n : Z) :
  Np.sum (Np.diff (if bool_decide (last_elt (walk chunkidx firstidx lastidx) ≠ n)
                   then walk chunkidx firstidx lastidx ++ [n]
                   else walk chunkidx firstidx lastidx)) = n.
Proof.
  unfold walk.
  destruct (walk_steps_head (zip chunkidx (zip firstidx lastidx)) [])
    as [rest ->].
  case_bool_decide as Hend.
  - change ((0 :: rest) ++ [n]) with (0 :: (rest ++ [n])).
    rewrite sum_diff.
    change (0 :: (rest ++ [n])) with ((0 :: rest) ++ [n]).
    rewrite last_elt_snoc. lia.
  - rewrite sum_diff. lia.
Qed.

(** The steps of the function on a partitioning, none of which fails. *)
Lemma optimal_chunks_run (chunks : list Z) (labels : list nat) :
  partitioning chunks (length labels) →
  ∃ bl lastidx firstidx,
    Forall2 (λ c x, labels !! Z.to_nat c = Some x) (chunk_ends chunks) bl ∧
    Forall2 (λ g l, ∃ k, l = Z.of_nat k ∧ last_occ labels g k)
            (Np.unique Nat.ltb bl) lastidx ∧
    Forall2 (λ g f, ∃ k, f = Z.of_nat k ∧ first_occ labels g k)
            (Np.unique Nat.ltb bl) firstidx ∧
    _get_optimal_chunks_for_groups chunks labels
    = if bool_decide (chunk_ends chunks = lastidx) then Ok chunks
      else Ok (Np.diff
                 (if bool_decide (last_elt (walk (chunk_ends chunks) firstidx lastidx)
                                  ≠ Z.of_nat (length labels))
                  then walk (chunk_ends chunks) firstidx lastidx
                       ++ [Z.of_nat (length labels)]
                  else walk (chunk_ends chunks) firstidx lastidx)).
Proof.
  intros Hp. pose proof Hp as (Hne & Hpos & Hsum).
  destruct (take_in_range labels (chunk_ends chunks)) as (bl & Hbltake & Hbl);
    [by apply chunk_ends_bounds|].
  assert (Forall (λ g, g ∈ labels) (Np.unique Nat.ltb bl)) as Hlab.
  { apply Forall_forall. intros g Hg.
    apply (elem_of_unique Nat.ltb lt nat_ltb_lt nat_lt_total g bl) in Hg.
    destruct (Forall2_elem_of_r _ _ _ _ Hbl Hg) as (c & _ & Hc).
    by eapply list_elem_of_lookup_2. }
  destruct (last_indexes_at labels _ Hlab) as (lastidx & Hltake & Hlast).
  destruct (first_indexes_at labels _ Hlab) as (firstidx & Hftake & Hfirst).
  exists bl, lastidx, firstidx. split; [done|]. split; [done|]. split; [done|].
  unfold _get_optimal_chunks_for_groups.
  rewrite bool_decide_eq_false_2 by done. cbv zeta.
  change ((λ s, s - 1) <$> Np.cumsum chunks) with (chunk_ends chunks).
  rewrite Hbltake, bind_Ok, Hltake, bind_Ok.
  unfold Np.eqb_list.
  destruct (decide (chunk_ends chunks = lastidx)) as [Heq|Hneq].
  - rewrite (bool_decide_eq_true_2 (chunk_ends chunks = lastidx)) by done.
    rewrite bool_decide_eq_true_2 by (by rewrite Heq). done.
  - rewrite (bool_decide_eq_false_2 (chunk_ends chunks = lastidx)) by done.
    rewrite andb_false_r, Hftake, bind_Ok.
    rewrite (chunk_ends_last chunks _ Hp).
    replace (Z.of_nat (length labels) - 1 + 1) with (Z.of_nat (length labels))
      by lia.
    rewrite bool_decide_eq_true_2 by (rewrite forced_end_sum; lia). done.
Qed.

Lemma Forall2_snoc_l {A B} (P : A → B → Prop) (l : list A) (x : A) (k : list B) :
  Forall2 P (l ++ [x]) k →
  ∃ k' y, k = k' ++ [y] ∧ length k' = length l ∧ P x y.
Proof.
  intros (k1 & k2 & H1 & H2 & ->)%Forall2_app_inv_l.
  inversion H2 as [|? y ? k2' Hxy Hnil]; subst. inversion Hnil; subst.
  exists k1, y. split; [done|]. split; [|done].
  symmetry. by eapply Forall2_length.
Qed.

(** X6: for a partitioning of non-decreasing labels the result never has more
    chunks than the argument. *)
Theorem chunk_count_not_increased (chunks : list Z) (labels : list nat) :
  partitioning chunks (length labels) → Sorted le labels →
  ∃ newchunks,
    _get_optimal_chunks_for_groups chunks labels = Ok newchunks ∧
    (length newchunks ≤ length chunks)%nat.
Proof.
  intros Hp Hs.
  destruct (optimal_chunks_run chunks labels Hp)
    as (bl & lastidx & firstidx & Hbl & Hlast & Hfirst & ->).
  case_bool_decide as Hfast; [by exists chunks|].
  eexists. split; [reflexivity|]. rewrite length_diff.
  pose proof Hp as (Hne & Hpos & Hsum).
  assert (0 < length labels)%nat as Hn.
  { pose proof (sum_pos chunks Hne Hpos). lia. }
  assert (length (chunk_ends chunks) = length chunks) as Hlen.
  { unfold chunk_ends, Np.cumsum. rewrite length_fmap. clear.
    generalize 0. induction chunks as [|c chunks IH]; intros acc; simpl; [done|].
    by rewrite IH. }
  pose proof (Forall2_length _ _ _ Hbl) as Hlenbl.
  pose proof (Forall2_length _ _ _ Hlast) as Hlenl.
  pose proof (Forall2_length _ _ _ Hfirst) as Hlenf.
  pose proof (length_unique Nat.ltb bl) as Hlenu.
  set (triples := zip (chunk_ends chunks) (zip firstidx lastidx)).
  assert (length triples ≤ length lastidx)%nat as Hlent.
  { unfold triples. rewrite !length_zip_with. lia. }
  destruct (decide (length lastidx = length chunks)) as [Heqlen|Hneqlen].
  2:{ pose proof (walk_steps_length triples [0]) as Hw. simpl in Hw.
      fold triples. unfold walk. fold triples.
      case_bool_decide; [rewrite length_app; simpl|]; lia. }
  (* as many groups at the bounds as chunks: the last triple ends the walk *)
  pose proof (chunk_ends_last chunks _ Hp) as Hclast.
  unfold last_elt in Hclast.
  destruct (last (chunk_ends chunks)) as [c|] eqn:Hc.
  2:{ apply last_None in Hc. rewrite Hc in Hlen. by destruct chunks. }
  simpl in Hclast. subst c.
  apply last_Some in Hc as [cs0 Hcs0].
  assert (∀ y, y ∈ bl → y ∈ labels) as Hall.
  { intros y Hy. destruct (Forall2_elem_of_r _ _ _ _ Hbl Hy) as (c' & _ & Hc').
    by eapply list_elem_of_lookup_2. }
  rewrite Hcs0 in Hbl.
  apply Forall2_snoc_l in Hbl as (bl0 & g & -> & Hlenbl0 & Hg).
  replace (Z.to_nat (Z.of_nat (length labels) - 1)) with (length labels - 1)%nat
    in Hg by lia.
  assert (last (Np.unique Nat.ltb (bl0 ++ [g])) = Some g) as Hulast.
  { apply sorted_last_max.
    - apply (unique_sorted Nat.ltb lt nat_ltb_lt nat_lt_total).
    - apply (elem_of_unique Nat.ltb lt nat_ltb_lt nat_lt_total).
      apply elem_of_app. right. by apply list_elem_of_singleton.
    - intros y Hy.
      apply (elem_of_unique Nat.ltb lt nat_ltb_lt nat_lt_total y (bl0 ++ [g])) in Hy.
      apply Hall, list_elem_of_lookup_1 in Hy as [j Hj].
      pose proof (lookup_lt_Some _ _ _ Hj).
      apply (sorted_lookup_le labels j (length labels - 1)); [done|lia|done..]. }
  apply last_Some in Hulast as [u0 Hu0].
  rewrite Hu0 in Hlast, Hfirst.
  apply Forall2_snoc_l in Hlast as (ls0 & l & -> & Hlenls0 & (k & -> & Hk)).
  apply Forall2_snoc_l in Hfirst as (fs0 & f & -> & Hlenfs0 & _).
  assert (k = (length labels - 1)%nat) as ->.
  { apply (last_occ_unique labels g); [done|]. split; [done|].
    intros j Hj. rewrite lookup_ge_None_2 by lia. done. }
  rewrite Hcs0, length_app in Hlen. rewrite length_app in Heqlen.
  simpl in Hlen, Heqlen.
  unfold walk. rewrite Hcs0.
  rewrite (zip_with_app pair fs0 [f] ls0 [_]) by lia.
  rewrite (zip_with_app pair cs0 [_]) by (rewrite length_zip_with; lia).
  rewrite fold_left_app. simpl fold_left.
  set (prev := fold_left walk_step (zip cs0 (zip fs0 ls0)) [0]).
  assert (length prev ≤ length chunks)%nat as Hprev.
  { pose proof (walk_steps_length (zip cs0 (zip fs0 ls0)) [0]) as Hw.
    rewrite !length_zip_with in Hw. simpl in Hw. fold prev in Hw. lia. }
  unfold walk_step.
  replace (Z.of_nat (length labels) - 1 - Z.of_nat (length labels - 1)) with 0 by lia.
  destruct (_ || _).
  { case_bool_decide; [rewrite length_app; simpl|]; lia. }
  assert ((Z.abs (Z.of_nat (length labels) - 1 - f) <? Z.abs 0) = false) as ->
    by (apply Z.ltb_ge; simpl; lia).
  simpl andb. cbv iota.
  replace (Z.of_nat (length labels - 1) + 1) with (Z.of_nat (length labels)) by lia.
  rewrite last_elt_snoc.
  rewrite bool_decide_eq_false_2 by (intros H; by apply H).
  rewrite length_app. simpl. lia.
Qed.

Lemma chunk_count_not_increased_witness :
  partitioning [2; 2; 2; 3] (length [0; 0; 0; 1; 1; 1; 1; 2; 2]%nat) ∧
  Sorted le [0; 0; 0; 1; 1; 1; 1; 2; 2]%nat ∧
  ∃ newchunks,
    _get_optimal_chunks_for_groups [2; 2; 2; 3] [0; 0; 0; 1; 1; 1; 1; 2; 2]%nat
      = Ok newchunks ∧
    (length newchunks ≤ length [2; 2; 2; 3])%nat.
Proof.
  assert (partitioning [2; 2; 2; 3] (length [0; 0; 0; 1; 1; 1; 1; 2; 2]%nat)) as Hp.
  { split; [discriminate|]. split; [repeat constructor|reflexivity]. }
  assert (Sorted le [0; 0; 0; 1; 1; 1; 1; 2; 2]%nat) as Hs.
  { repeat constructor. }
  split; [exact Hp|]. split; [exact Hs|].
  exact (chunk_count_not_increased _ _ Hp Hs).
Defined.

(** * Further properties of [rechunk_to_group_boundaries] *)

Lemma get_axis_num_Ok (array : DataArray) (dim : string) (axis : nat) :
  get_axis_num array dim = Ok axis → dims array !! axis = Some dim.
Proof.
  unfold get_axis_num.
  destruct (list_find _ _) as [[i d]|] eqn:Hfind; [|done].
  intros [= <-]. apply list_find_Some in Hfind as (Hi & -> & _). done.
Qed.

Lemma get_axis_num_Raise (array : DataArray) (dim : string) (e : exn) :
  get_axis_num array dim = Raise e → e = ValueError ∧ dim ∉ dims array.
Proof.
  unfold get_axis_num.
  destruct (list_find _ _) as [[i d]|] eqn:Hfind; [done|].
  intros [= <-]. split; [done|].
  apply list_find_None in Hfind. rewrite Forall_forall in Hfind.
  intros Hin. by apply (Hfind dim).
Qed.

(** X7: the function raises [ValueError] for a dimension that the array does
    not have, and [TypeError] for a dimension it has when the array has no
    chunks; both before the chunks or the labels are looked at. *)
Theorem rechunk_errors (array : DataArray) (dim : string) (labels : list nat)
    (w : world) :
  (dim ∉ dims array →
   rechunk_to_group_boundaries array dim labels w = Raise ValueError) ∧
  (dim ∈ dims array → chunks array = None →
   rechunk_to_group_boundaries array dim labels w = Raise TypeError).
Proof.
  unfold rechunk_to_group_boundaries.
  destruct (get_axis_num array dim) as [axis|e] eqn:Haxis.
  - apply get_axis_num_Ok, list_elem_of_lookup_2 in Haxis. rewrite bind_Ok.
    split; [done|]. by intros _ ->.
  - apply get_axis_num_Raise in Haxis as [-> Hnot]. split; [done|]. done.
Qed.

Lemma rechunk_errors_witness :
  ("y"%string ∉ ["time"; "x"]%string) ∧
  rechunk_to_group_boundaries
    (mkDataArray 7 ["time"; "x"]%string [2; 7; 1; 8; 2; 8; 1; 8; 2]
       (Some [[4; 3; 2]; [1]]))
    "y" [0; 0; 0; 1; 1; 1; 1; 2; 2]%nat (mkWorld 8 []) = Raise ValueError.
Proof.
  assert ("y"%string ∉ ["time"; "x"]%string) as Hnot.
  { apply (bool_decide_unpack _). vm_compute. exact I. }
  split; [exact Hnot|].
  exact (proj1 (rechunk_errors
                  (mkDataArray 7 ["time"; "x"]%string [2; 7; 1; 8; 2; 8; 1; 8; 2]
                     (Some [[4; 3; 2]; [1]]))
                  "y" [0; 0; 0; 1; 1; 1; 1; 2; 2]%nat (mkWorld 8 [])) Hnot).
Defined.

(** X8: aligning twice is aligning once: on the result of a first call, a second
    call with the same labels returns that array and issues nothing. *)
Theorem rechunk_twice (array : DataArray) (dim : string) (labels : list nat)
    (w : world) (axis : nat) (all_chunks : list (list Z)) (cs : list Z) :
  get_axis_num array dim = Ok axis →
  chunks array = Some all_chunks →
  all_chunks !! axis = Some cs →
  partitioning cs (length labels) → Sorted le labels →
  ∃ array' w',
    rechunk_to_group_boundaries array dim labels w = Ok (array', w') ∧
    rechunk_to_group_boundaries array' dim labels w' = Ok (array', w').
Proof.
  intros Haxis Hchunks Hcs Hp Hs.
  destruct (optimal_chunks_spec cs labels Hp) as (out & Hout & Hpout & _).
  pose proof (optimal_chunks_idempotent cs labels out Hp Hs Hout) as Hidem.
  unfold rechunk_to_group_boundaries at 1.
  rewrite Haxis, bind_Ok, Hchunks, Hcs, Hout, bind_Ok.
  case_bool_decide as Hcmp.
  - exists array, w. split; [done|]. subst out.
    unfold rechunk_to_group_boundaries.
    rewrite Haxis, bind_Ok, Hchunks, Hcs, Hout, bind_Ok.
    by rewrite bool_decide_eq_true_2.
  - unfold chunk. rewrite Hcs.
    change (default [] (Some cs)) with cs.
    rewrite (valid_chunks_partitioning _ _ _ Hp Hpout).
    eexists _, _. split; [reflexivity|].
    unfold rechunk_to_group_boundaries.
    unfold get_axis_num in *. cbn [dims chunks].
    destruct (list_find _ _) as [[i d]|]; [|done].
    injection Haxis as ->. rewrite bind_Ok.
    rewrite list_lookup_insert_eq by (by eapply lookup_lt_Some).
    rewrite Hidem, bind_Ok. by rewrite bool_decide_eq_true_2.
Qed.

Lemma rechunk_twice_witness :
  get_axis_num
    (mkDataArray 7 ["time"; "x"]%string [2; 7; 1; 8; 2; 8; 1; 8; 2]
       (Some [[4; 3; 2]; [1]])) "time" = Ok 0%nat ∧
  partitioning [4; 3; 2] (length [0; 0; 0; 1; 1; 1; 1; 2; 2]%nat) ∧
  Sorted le [0; 0; 0; 1; 1; 1; 1; 2; 2]%nat ∧
  ∃ array' w',
    rechunk_to_group_boundaries
      (mkDataArray 7 ["time"; "x"]%string [2; 7; 1; 8; 2; 8; 1; 8; 2]
         (Some [[4; 3; 2]; [1]]))
      "time" [0; 0; 0; 1; 1; 1; 1; 2; 2]%nat (mkWorld 8 []) = Ok (array', w') ∧
    rechunk_to_group_boundaries array' "time" [0; 0; 0; 1; 1; 1; 1; 2; 2]%nat w'
    = Ok (array', w').
Proof.
  assert (partitioning [4; 3; 2] (length [0; 0; 0; 1; 1; 1; 1; 2; 2]%nat)) as Hp.
  { split; [discriminate|]. split; [repeat constructor|reflexivity]. }
  assert (Sorted le [0; 0; 0; 1; 1; 1; 1; 2; 2]%nat) as Hs.
  { repeat constructor. }
  split; [reflexivity|]. split; [exact Hp|]. split; [exact Hs|].
  exact (rechunk_twice
           (mkDataArray 7 ["time"; "x"]%string [2; 7; 1; 8; 2; 8; 1; 8; 2]
              (Some [[4; 3; 2]; [1]]))
           "time" [0; 0; 0; 1; 1; 1; 1; 2; 2]%nat (mkWorld 8 [])
           0 [[4; 3; 2]; [1]] [4; 3; 2] eq_refl eq_refl eq_refl Hp Hs).
Defined.

(** * Further properties of [resample_reduce] *)

Lemma tiles_resample_labels (size : Z) (group_indices : list slice) :
  tiles 0 size group_indices →
  ∃ labels,
    resample_labels size group_indices = Ok labels ∧
    Sorted le labels ∧
    Z.of_nat (length labels) = size ∧
    ∀ i slicer p,
      group_indices !! i = Some slicer →
      start slicer ≤ p < default size (stop slicer) →
      labels !! Z.to_nat p = Some i.
Proof.
  intros Ht.
  destruct (tiles_labels size 0 0 group_indices Ht)
    as (tostack & Hts & Hlen & Hlook).
  destruct (tostack_from_Ok _ _ _ _ Hts) as [Hlen' Hruns].
  exists (concat tostack). unfold resample_labels. rewrite Hts, bind_Ok.
  destruct tostack as [|run runs].
  { destruct group_indices; [done|discriminate]. }
  split; [done|]. split.
  { rewrite Hruns. apply StronglySorted_Sorted, runs_from_sorted. }
  split; [lia|].
  intros i s p Hs Hp. specialize (Hlook i s p Hs Hp).
  by rewrite Z.sub_0_r in Hlook.
Qed.

(** X9: for a chunked array whose chunks along the resampled dimension
    partition it, and bins that tile the dimension, the alignment step of
    [resample_reduce] succeeds and leaves chunks that partition the
    dimension and split no bin: no chunk boundary lies strictly inside a
    bin. *)
Theorem resample_rechunk_splits_no_bin (array : DataArray) (dim : string)
    (size : Z) (group_indices : list slice) (w : world) (axis : nat)
    (all_chunks : list (list Z)) (cs : list Z) :
  tiles 0 size group_indices →
  get_axis_num array dim = Ok axis →
  chunks array = Some all_chunks →
  all_chunks !! axis = Some cs →
  cs ≠ [] → Forall (λ c, 0 < c) cs → Np.sum cs = size →
  ∃ array' w' all_chunks' cs',
    resample_rechunk array dim size group_indices w = Ok (array', w') ∧
    chunks array' = Some all_chunks' ∧
    all_chunks' !! axis = Some cs' ∧
    cs' ≠ [] ∧ Forall (λ c, 0 < c) cs' ∧ Np.sum cs' = size ∧
    ∀ b i slicer,
      b ∈ Np.cumsum cs' → group_indices !! i = Some slicer →
      ¬ (start slicer < b < default size (stop slicer)).
Proof.
  intros Ht Haxis Hchunks Hcs Hne Hpos Hsum.
  destruct (tiles_resample_labels size group_indices Ht)
    as (labels & Hlabels & _ & Hlen & Hbins).
  assert (partitioning cs (length labels)) as Hp by (repeat split; [done..|lia]).
  destruct (optimal_chunks_spec cs labels Hp)
    as (out & Hout & (Hne' & Hpos' & Hsum') & Hgb).
  assert (∀ b i slicer,
            b ∈ Np.cumsum out → group_indices !! i = Some slicer →
            ¬ (start slicer < b < default size (stop slicer))) as Hnosplit.
  { intros b i s Hb Hi [Hlo Hhi].
    rewrite Forall_forall in Hgb. destruct (Hgb b Hb) as [_ Hdiff].
    apply Hdiff.
    rewrite (Hbins i s (b - 1) Hi) by lia. rewrite (Hbins i s b Hi) by lia. done. }
  unfold resample_rechunk. rewrite Hlabels, bind_Ok, Hchunks.
  unfold rechunk_to_group_boundaries.
  rewrite Haxis, bind_Ok, Hchunks, Hcs, Hout, bind_Ok.
  case_bool_decide as Hcmp.
  - subst out. exists array, w, all_chunks, cs.
    repeat split; try done; lia.
  - unfold chunk. rewrite Hcs.
    change (default [] (Some cs)) with cs.
    rewrite (valid_chunks_partitioning cs out (length labels) Hp
               (conj Hne' (conj Hpos' Hsum'))).
    eexists _, _, _, out. split; [reflexivity|]. cbn [chunks].
    split; [reflexivity|].
    split; [apply list_lookup_insert_eq; by eapply lookup_lt_Some|].
    repeat split; try done; lia.
Qed.

Lemma resample_rechunk_splits_no_bin_witness :
  tiles 0 9 [mkSlice 0 (Some 3); mkSlice 3 (Some 7); mkSlice 7 None] ∧
  [4; 3; 2] ≠ [] ∧ Forall (λ c, 0 < c) [4; 3; 2] ∧ Np.sum [4; 3; 2] = 9 ∧
  ∃ array' w' all_chunks' cs',
    resample_rechunk
      (mkDataArray 7 ["time"; "x"]%string [2; 7; 1; 8; 2; 8; 1; 8; 2]
         (Some [[4; 3; 2]; [1]]))
      "time" 9 [mkSlice 0 (Some 3); mkSlice 3 (Some 7); mkSlice 7 None]
      (mkWorld 8 []) = Ok (array', w') ∧
    chunks array' = Some all_chunks' ∧
    all_chunks' !! 0%nat = Some cs' ∧
    cs' ≠ [] ∧ Forall (λ c, 0 < c) cs' ∧ Np.sum cs' = 9 ∧
    ∀ b i slicer,
      b ∈ Np.cumsum cs' →
      [mkSlice 0 (Some 3); mkSlice 3 (Some 7); mkSlice 7 None] !! i = Some slicer →
      ¬ (start slicer < b < default 9 (stop slicer)).
Proof.
  assert (tiles 0 9 [mkSlice 0 (Some 3); mkSlice 3 (Some 7); mkSlice 7 None]) as Ht.
  { simpl. split; [reflexivity|]. exists 3. split; [reflexivity|].
    split; [discriminate|]. split; [reflexivity|].
    exists 7. split; [reflexivity|]. split; [discriminate|].
    split; [reflexivity|]. split; [discriminate|]. by left. }
  assert (([4; 3; 2] : list Z) ≠ []) as Hne by discriminate.
  assert (Forall (λ c, 0 < c) [4; 3; 2]) as Hpos by (repeat constructor).
  assert (Np.sum [4; 3; 2] = 9) as Hsum by reflexivity.
  split; [exact Ht|]. split; [exact Hne|]. split; [exact Hpos|].
  split; [exact Hsum|].
  exact (resample_rechunk_splits_no_bin
           (mkDataArray 7 ["time"; "x"]%string [2; 7; 1; 8; 2; 8; 1; 8; 2]
              (Some [[4; 3; 2]; [1]]))
           "time" 9 [mkSlice 0 (Some 3); mkSlice 3 (Some 7); mkSlice 7 None]
           (mkWorld 8 []) 0 [[4; 3; 2]; [1]] [4; 3; 2]
           Ht eq_refl eq_refl eq_refl Hne Hpos Hsum).
Defined.

Lemma label_run_Raise (size : Z) (idx : nat) (slicer : slice) (e : exn) :
  label_run size idx slicer = Raise e → e = ValueError.
Proof. unfold label_run. destruct (_ <? 0); [by intros [= <-]|done]. Qed.

Lemma tostack_from_negative (size : Z) (idx : nat) (group_indices : list slice) :
  Exists (λ s, default size (stop s) < start s) group_indices →
  tostack_from size idx group_indices = Raise ValueError.
Proof.
  intros Hex. revert idx.
  induction Hex as [s rest Hs|s rest _ IH]; intros idx; cbn [tostack_from].
  - unfold label_run. by rewrite (proj2 (Z.ltb_lt _ 0)) by lia.
  - destruct (label_run size idx s) as [run|e] eqn:Hrun.
    + by rewrite bind_Ok, IH.
    + by apply label_run_Raise in Hrun as ->.
Qed.

Lemma tostack_from_nonnegative (size : Z) (idx : nat) (group_indices : list slice) :
  Forall (λ s, start s ≤ default size (stop s)) group_indices →
  ∃ tostack, tostack_from size idx group_indices = Ok tostack.
Proof.
  intros Hall. revert idx.
  induction Hall as [|s rest Hs _ IH]; intros idx; cbn [tostack_from].
  - by eexists.
  - unfold label_run. rewrite (proj2 (Z.ltb_ge _ 0)) by lia.
    destruct (IH (S idx)) as [runs ->]. by eexists.
Qed.

(** X10: building the labels fails, with [ValueError], exactly when there is no
    bin or some bin stops before it starts; otherwise it succeeds. *)
Theorem resample_labels_outcome (size : Z) (group_indices : list slice) :
  (resample_labels size group_indices = Raise ValueError
   ↔ group_indices = [] ∨
     Exists (λ s, default size (stop s) < start s) group_indices) ∧
  ((∃ labels, resample_labels size group_indices = Ok labels)
   ↔ group_indices ≠ [] ∧
     Forall (λ s, start s ≤ default size (stop s)) group_indices).
Proof.
  unfold resample_labels.
  destruct (decide (Exists (λ s, default size (stop s) < start s) group_indices))
    as [Hex|Hnex].
  - rewrite (tostack_from_negative size 0 _ Hex). split.
    + split; [by right|done].
    + split; [by intros [? ?]|]. intros [_ Hall].
      apply Exists_exists in Hex as (s & Hs & Hneg).
      rewrite Forall_forall in Hall. specialize (Hall s Hs). simpl in Hall. lia.
  - assert (Forall (λ s, start s ≤ default size (stop s)) group_indices) as Hall.
    { apply Forall_forall. intros s Hs.
      destruct (decide (start s ≤ default size (stop s))) as [|Hn]; [done|].
      destruct Hnex. apply Exists_exists. exists s. split; [done|lia]. }
    destruct (tostack_from_nonnegative size 0 _ Hall) as [tostack Hts].
    rewrite Hts, bind_Ok.
    destruct (tostack_from_Ok _ _ _ _ Hts) as [Hlen _].
    destruct tostack as [|run runs].
    + destruct group_indices; [|discriminate]. split.
      * split; [by left|done].
      * split; [by intros [? ?]|by intros [? _]].
    + assert (group_indices ≠ []) by (by destruct group_indices). split.
      * split; [done|]. by intros [?|?].
      * split; [done|]. intros _. by eexists.
Qed.

Lemma elem_of_runs_from (x idx : nat) (lens : list nat) :
  x ∈ runs_from idx lens
  ↔ ∃ i n, lens !! i = Some n ∧ (0 < n)%nat ∧ x = (idx + i)%nat.
Proof.
  revert idx. induction lens as [|m lens IH]; intros idx; simpl.
  - rewrite elem_of_nil. split; [done|]. by intros (i & n & Hi & _).
  - rewrite elem_of_app, elem_of_replicate, IH. split.
    + intros [[-> Hm]|(i & n & Hi & Hn & ->)].
      * exists 0%nat, m. split; [done|]. split; lia.
      * exists (S i), n. split; [done|]. split; lia.
    + intros ([|i] & n & Hi & Hn & ->); simpl in Hi.
      * left. simplify_eq. split; lia.
      * right. exists i, n. split; [done|]. split; lia.
Qed.

Lemma length_runs_from (idx : nat) (lens : list nat) :
  length (runs_from idx lens) = sum_list lens.
Proof.
  revert idx. induction lens as [|n lens IH]; intros idx; simpl; [done|].
  by rewrite length_app, length_replicate, IH.
Qed.

(** X11: the labels that are built: a label [i] occurs exactly when the i-th bin
    is not empty, so every label is the position of a bin; and there are as
    many labels as the bins have elements. *)
Theorem resample_labels_values (size : Z) (group_indices : list slice)
    (labels : list nat) :
  resample_labels size group_indices = Ok labels →
  (∀ i, i ∈ labels
        ↔ ∃ slicer, group_indices !! i = Some slicer ∧
                    start slicer < default size (stop slicer)) ∧
  Forall (λ i, i < length group_indices)%nat labels ∧
  length labels = sum_list (run_length size <$> group_indices).
Proof.
  unfold resample_labels.
  destruct (tostack_from size 0 group_indices) as [tostack|] eqn:Hts; [|done].
  rewrite bind_Ok. destruct (tostack_from_Ok _ _ _ _ Hts) as [_ Hruns].
  destruct tostack as [|run runs]; [done|]. intros [= <-].
  change (run ++ concat runs) with (concat (run :: runs)). rewrite Hruns.
  assert (∀ i, i ∈ runs_from 0 (run_length size <$> group_indices)
               ↔ ∃ slicer, group_indices !! i = Some slicer ∧
                           start slicer < default size (stop slicer)) as Hmem.
  { intros i. rewrite elem_of_runs_from. split.
    - intros (j & n & Hj & Hn & ->).
      apply list_lookup_fmap_Some in Hj as (s & -> & Hs).
      exists s. split; [done|]. unfold run_length in Hn. lia.
    - intros (s & Hs & Hlt). exists i, (run_length size s).
      split; [by rewrite list_lookup_fmap, Hs|]. unfold run_length. split; lia. }
  split; [exact Hmem|]. split; [|apply length_runs_from].
  apply Forall_forall. intros i (s & Hs & _)%Hmem. by eapply lookup_lt_Some.
Qed.

Lemma resample_labels_values_witness :
  resample_labels 6 [mkSlice 0 (Some 2); mkSlice 2 (Some 2); mkSlice 2 None]
  = Ok [0; 0; 2; 2; 2; 2]%nat ∧
  (∀ i, i ∈ [0; 0; 2; 2; 2; 2]%nat
        ↔ ∃ slicer,
            [mkSlice 0 (Some 2); mkSlice 2 (Some 2); mkSlice 2 None] !! i
            = Some slicer ∧
            start slicer < default 6 (stop slicer)) ∧
  Forall (λ i, i < 3)%nat [0; 0; 2; 2; 2; 2]%nat ∧
  length [0; 0; 2; 2; 2; 2]%nat = 6%nat.
Proof.
  assert (resample_labels 6 [mkSlice 0 (Some 2); mkSlice 2 (Some 2); mkSlice 2 None]
          = Ok [0; 0; 2; 2; 2; 2]%nat) as Hlabels by reflexivity.
  split; [exact Hlabels|].
  exact (resample_labels_values 6 _ _ Hlabels).
Defined.

(** * Further properties of [xarray_reduce] *)

(** X12: the axes passed to the reduction are negative, one per grouped
    dimension, and address, in the core dimensions [indims] of the data, the
    grouped dimensions in their order. *)
Theorem reduce_axis_indims (obj_dims dim : list string) (k : nat) (d : string) :
  dim !! k = Some d →
  ∃ a, reduce_axis dim !! k = Some a ∧ a < 0 ∧
       Np.getitem (indims obj_dims dim) a = Ok d.
Proof.
  intros Hk. pose proof (lookup_lt_Some _ _ _ Hk) as Hlt.
  exists (- Z.of_nat (length dim) + Z.of_nat k). split; [|split; [lia|]].
  - unfold reduce_axis. apply lookup_seqZ. split; [done|lia].
  - unfold Np.getitem, indims. cbv zeta. rewrite length_app.
    set (m := length (otherdims obj_dims dim)).
    rewrite (proj2 (Z.ltb_lt _ 0)) by lia.
    replace (- Z.of_nat (length dim) + Z.of_nat k + Z.of_nat (m + length dim))
      with (Z.of_nat (m + k)) by lia.
    rewrite (proj2 (Z.leb_le 0 _)) by lia.
    rewrite (proj2 (Z.ltb_lt _ _)) by lia. simpl andb. cbv iota.
    subst m. rewrite Nat2Z.id, lookup_app_r by lia.
    replace (length (otherdims obj_dims dim) + k - length (otherdims obj_dims dim))%nat
      with k by lia.
    by rewrite Hk.
Qed.

Lemma reduce_axis_indims_witness :
  ["lat"; "lon"]%string !! 1%nat = Some "lon"%string ∧
  ∃ a, reduce_axis ["lat"; "lon"]%string !! 1%nat = Some a ∧ a < 0 ∧
       Np.getitem (indims ["time"; "lat"; "lon"]%string ["lat"; "lon"]%string) a
       = Ok "lon"%string.
Proof.
  assert (["lat"; "lon"]%string !! 1%nat = Some "lon"%string) as Hk by reflexivity.
  split; [exact Hk|].
  exact (reduce_axis_indims ["time"; "lat"; "lon"]%string ["lat"; "lon"]%string
           1 "lon" Hk).
Defined.

(** X13: when the grouped dimensions are distinct dimensions of the data, the
    core dimensions [indims] are the dimensions of the data reordered, the
    result has one dimension per remaining dimension and per key, and a
    grouped dimension is a dimension of the result only as the name of a
    key. *)
Theorem reduce_dims_layout (obj_dims dim group_names : list string) :
  NoDup obj_dims → NoDup dim → dim ⊆ obj_dims →
  indims obj_dims dim ≡ₚ obj_dims ∧
  length (result_dims obj_dims dim group_names)
  = (length obj_dims - length dim + length group_names)%nat ∧
  ∀ d, d ∈ result_dims obj_dims dim group_names → d ∈ dim → d ∈ group_names.
Proof.
  intros Hobj Hdim Hsub.
  assert (indims obj_dims dim ≡ₚ obj_dims) as Hperm.
  { apply NoDup_Permutation; [|done|].
    - apply NoDup_app. split; [by apply NoDup_filter|]. split; [|done].
      by intros x [Hx _]%list_elem_of_filter.
    - intros x. unfold indims, otherdims.
      rewrite elem_of_app, list_elem_of_filter. split.
      + intros [[_ ?]|?]; [done|by apply Hsub].
      + intros Hx. destruct (decide (x ∈ dim)); [by right|by left]. }
  split; [done|]. split.
  - apply Permutation_length in Hperm. unfold indims in Hperm.
    rewrite length_app in Hperm. unfold result_dims. rewrite length_app. lia.
  - intros d [[Hd _]%list_elem_of_filter|Hd]%elem_of_app Hin; [done|done].
Qed.

Lemma reduce_dims_layout_witness :
  NoDup ["time"; "lat"; "lon"]%string ∧ NoDup ["time"]%string ∧
  ["time"]%string ⊆ ["time"; "lat"; "lon"]%string ∧
  indims ["time"; "lat"; "lon"]%string ["time"]%string
  ≡ₚ ["time"; "lat"; "lon"]%string ∧
  length (result_dims ["time"; "lat"; "lon"]%string ["time"]%string ["month"]%string)
  = (length ["time"; "lat"; "lon"]%string - length ["time"]%string
     + length ["month"]%string)%nat ∧
  ∀ d, d ∈ result_dims ["time"; "lat"; "lon"]%string ["time"]%string ["month"]%string →
       d ∈ ["time"]%string → d ∈ ["month"]%string.
Proof.
  assert (NoDup ["time"; "lat"; "lon"]%string) as Hobj.
  { apply (bool_decide_unpack _). vm_compute. exact I. }
  assert (NoDup ["time"]%string) as Hdim.
  { apply (bool_decide_unpack _). vm_compute. exact I. }
  assert (["time"]%string ⊆ ["time"; "lat"; "lon"]%string) as Hsub.
  { intros x Hx. apply list_elem_of_singleton in Hx. subst x.
    apply elem_of_cons. by left. }
  split; [exact Hobj|]. split; [exact Hdim|]. split; [exact Hsub|].
  exact (reduce_dims_layout _ _ _ Hobj Hdim Hsub).
Defined.

Lemma group_sizes_pairs (pairs : list (string * nat)) (n : string) (s : nat) :
  NoDup pairs.*1 → (n, s) ∈ pairs →
  fold_left (λ sizes p, <[p.1 := p.2]> sizes) pairs (∅ : gmap string nat) !! n
  = Some s.
Proof.
  induction pairs as [|p pairs IH] using rev_ind; intros Hnd Hin.
  - by apply elem_of_nil in Hin.
  - rewrite fold_left_app. simpl.
    rewrite fmap_app in Hnd. apply NoDup_app in Hnd as (Hnd & Hfresh & _).
    apply elem_of_app in Hin as [Hin|Hin%list_elem_of_singleton].
    + rewrite lookup_insert_ne; [by apply IH|].
      intros Heq. apply (Hfresh n).
      * apply list_elem_of_fmap. by exists (n, s).
      * rewrite <- Heq. simpl. apply list_elem_of_singleton. done.
    + subst p. simpl. by rewrite lookup_insert_eq.
Qed.

Lemma group_sizes_absent (pairs : list (string * nat)) (n : string) :
  n ∉ pairs.*1 →
  fold_left (λ sizes p, <[p.1 := p.2]> sizes) pairs (∅ : gmap string nat) !! n
  = None.
Proof.
  induction pairs as [|p pairs IH] using rev_ind; intros Hn; [done|].
  rewrite fold_left_app. simpl. rewrite fmap_app, elem_of_app in Hn.
  rewrite lookup_insert_ne.
  - apply IH. tauto.
  - intros Heq. apply Hn. right. simpl. apply list_elem_of_singleton. done.
Qed.

Lemma zip_fst_elem_of {A B} (l : list A) (k : list B) (x : A) :
  x ∈ (zip l k).*1 → x ∈ l.
Proof.
  intros ([a b] & -> & Hab)%list_elem_of_fmap.
  apply list_elem_of_lookup_1 in Hab as [i Hi].
  apply lookup_zip_with_Some in Hi as (a' & b' & Heq & Ha & _).
  simplify_eq. by eapply list_elem_of_lookup_2.
Qed.

Lemma NoDup_zip_fst {A B} (l : list A) (k : list B) :
  NoDup l → NoDup (zip l k).*1.
Proof.
  intros Hnd. revert k.
  induction Hnd as [|x l Hx Hnd IH]; intros k; [constructor|].
  destruct k as [|y k]; [constructor|]. simpl. constructor; [|apply IH].
  intros Hin. by apply Hx, (zip_fst_elem_of l k).
Qed.

(** X14: with distinct key names, the sizes declared for the output record for
    the name of each key the number of its groups, and nothing for any
    other name. *)
Theorem group_sizes_lookup (group_names : list string) (group_shape : list nat) :
  NoDup group_names →
  (∀ i name size,
     group_names !! i = Some name → group_shape !! i = Some size →
     group_sizes group_names group_shape !! name = Some size) ∧
  (∀ name, name ∉ group_names →
           group_sizes group_names group_shape !! name = None).
Proof.
  intros Hnd. unfold group_sizes. split.
  - intros i name size Hname Hsize. apply group_sizes_pairs.
    + by apply NoDup_zip_fst.
    + apply (list_elem_of_lookup_2 _ i). apply lookup_zip_with_Some. eauto.
  - intros name Hname. apply group_sizes_absent.
    intros Hin. by apply Hname, (zip_fst_elem_of _ group_shape).
Qed.

Lemma group_sizes_lookup_witness :
  NoDup ["month"; "region"]%string ∧
  group_sizes ["month"; "region"]%string [12; 5]%nat !! "region"%string = Some 5%nat.
Proof.
  assert (NoDup ["month"; "region"]%string) as Hnd.
  { apply (bool_decide_unpack _). vm_compute. exact I. }
  split; [exact Hnd|].
  exact (proj1 (group_sizes_lookup ["month"; "region"]%string [12; 5]%nat Hnd)
           1%nat "region"%string 5%nat eq_refl eq_refl).
Defined.
